(** * Flick-TV: the playlist parser, the favorites hook, channel navigation,
      the CORS proxy helper and the playlist relay, embedded from the
      TypeScript sources and verified against the specification.

    JavaScript strings are sequences of UTF-16 code units; a code unit is a
    natural number below 65536, kept here as [N].  Platform functions that can
    throw ([btoa], [encodeURIComponent], the [Response] constructor) return a
    [completion], and [try_catch] is the [try { } catch { }] statement. *)

From Stdlib Require Import NArith ZArith List Lia Bool String Ascii Permutation.
From stdpp Require Import base option gmap.
Import ListNotations.

Local Open Scope N_scope.

(* ===================================================================== *)
(** ** JavaScript values used by the sources *)
(* ===================================================================== *)

Module JS.

Definition jsstring := list N.

(** A source literal without non-ASCII characters, as code units. *)
Definition lit (s : string) : jsstring :=
  List.map N_of_ascii (list_ascii_of_string s).

Definition dquote : N := 34.
Definition comma : N := 44.
Definition newline : N := 10.

(** Exceptions the platform functions raise. *)
Inductive JsError :=
| InvalidCharacterError
| TypeError
| RangeError
| URIError
| NetworkError.

(** The outcome of evaluating an expression: a value or a thrown error. *)
Inductive completion (A : Type) :=
| Ok (a : A)
| Throw (e : JsError).
Arguments Ok {A} a.
Arguments Throw {A} e.

Definition bind {A B} (c : completion A) (f : A -> completion B) : completion B :=
  match c with
  | Ok a => f a
  | Throw e => Throw e
  end.

Notation "'let*' x ':=' c 'in' k" := (bind c (fun x => k))
  (at level 10, x name, c at level 100, k at level 200).

(** [try { body } catch (error) { handler }] *)
Definition try_catch {A} (body : completion A) (handler : JsError -> A) : A :=
  match body with
  | Ok a => a
  | Throw e => handler e
  end.

(** Truthiness of a string: only the empty string is falsy. *)
Definition truthy (s : jsstring) : bool :=
  match s with
  | [] => false
  | _ :: _ => true
  end.

(** [s.startsWith(prefix)] *)
Fixpoint startsWith (s prefix : jsstring) {struct prefix} : bool :=
  match prefix, s with
  | [], _ => true
  | p :: prefix', c :: s' => (c =? p) && startsWith s' prefix'
  | _ :: _, [] => false
  end.

(** [array.includes(x)] on an array of strings ([===] on strings compares
    the code units). *)
Definition includes (l : list jsstring) (x : jsstring) : bool :=
  existsb (fun y => bool_decide (y = x)) l.

(** WhiteSpace and LineTerminator code points of ECMAScript: what
    [String.prototype.trim] strips and what [\s] matches. *)
Definition isWhiteSpace (c : N) : bool :=
  ((9 <=? c) && (c <=? 13)) || (c =? 32) || (c =? 160) || (c =? 5760)
  || ((8192 <=? c) && (c <=? 8202)) || (c =? 8232) || (c =? 8233)
  || (c =? 8239) || (c =? 8287) || (c =? 12288) || (c =? 65279).

Fixpoint trimStart (s : jsstring) : jsstring :=
  match s with
  | c :: s' => if isWhiteSpace c then trimStart s' else s
  | [] => []
  end.

Definition trimEnd (s : jsstring) : jsstring := rev (trimStart (rev s)).

(** [s.trim()] *)
Definition trim (s : jsstring) : jsstring := trimEnd (trimStart s).

(** [s.split(sep)] for a one-character separator: the segments between the
    separators, at least one segment. *)
Fixpoint split (sep : N) (s : jsstring) : list jsstring :=
  match s with
  | [] => [[]]
  | c :: s' =>
      if c =? sep then [] :: split sep s'
      else match split sep s' with
           | seg :: segs => (c :: seg) :: segs
           | [] => [[c]]
           end
  end.

(** [\w] *)
Definition isWordChar (c : N) : bool :=
  ((65 <=? c) && (c <=? 90)) || ((97 <=? c) && (c <=? 122))
  || ((48 <=? c) && (c <=? 57)) || (c =? 95).

(** [[a-zA-Z0-9]] *)
Definition isAlphaNum (c : N) : bool :=
  ((97 <=? c) && (c <=? 122)) || ((65 <=? c) && (c <=? 90))
  || ((48 <=? c) && (c <=? 57)).

(** [s.substring(0, n)] *)
Definition substring0 (n : nat) (s : jsstring) : jsstring := firstn n s.

(** *** [btoa]: Base64 of a string whose code units are all below 256 *)

Definition base64Char (i : N) : N :=
  if i <? 26 then 65 + i
  else if i <? 52 then 97 + (i - 26)
  else if i <? 62 then 48 + (i - 52)
  else if i =? 62 then 43
  else 47.

Definition padChar : N := 61.

Fixpoint base64Encode (bytes : list N) : jsstring :=
  match bytes with
  | a :: b :: c :: rest =>
      base64Char (N.shiftr a 2)
      :: base64Char (N.lor (N.shiftl (N.land a 3) 4) (N.shiftr b 4))
      :: base64Char (N.lor (N.shiftl (N.land b 15) 2) (N.shiftr c 6))
      :: base64Char (N.land c 63)
      :: base64Encode rest
  | [a; b] =>
      [ base64Char (N.shiftr a 2);
        base64Char (N.lor (N.shiftl (N.land a 3) 4) (N.shiftr b 4));
        base64Char (N.shiftl (N.land b 15) 2);
        padChar ]
  | [a] =>
      [ base64Char (N.shiftr a 2);
        base64Char (N.shiftl (N.land a 3) 4);
        padChar; padChar ]
  | [] => []
  end.

Definition isLatin1 (s : jsstring) : bool := forallb (fun c => c <=? 255) s.

(** [btoa(s)] throws an [InvalidCharacterError] when [s] has a code unit
    above 255. *)
Definition btoa (s : jsstring) : completion jsstring :=
  if isLatin1 s then Ok (base64Encode s) else Throw InvalidCharacterError.

(** *** Regular expressions

    A backtracking matcher in continuation-passing style for the fragment
    the sources use: character classes, sequence, ordered alternation,
    greedy repetition, capturing groups and [$] (no [m] flag: end of
    input). *)

Inductive regex :=
| Class (p : N -> bool)
| Seq (r1 r2 : regex)
| Alt (r1 r2 : regex)
| Star (r : regex)
| Group (n : nat) (r : regex)
| EndOfInput.

Definition Plus (r : regex) : regex := Seq r (Star r).
Definition Chr (c : N) : regex := Class (N.eqb c).
Definition NotChr (c : N) : regex := Class (fun x => negb (x =? c)).

(** The captures of a match, most recent first; a group that took no part
    in the match is [undefined]. *)
Definition captures := list (nat * jsstring).

Fixpoint capture (caps : captures) (n : nat) : option jsstring :=
  match caps with
  | [] => None
  | (m, s) :: caps' => if Nat.eqb m n then Some s else capture caps' n
  end.

Section Matcher.
Context {R : Type}.

Definition continuation := jsstring -> captures -> option R.
Definition matcher := jsstring -> captures -> continuation -> option R.

(** Greedy [r*]: one more iteration first, then the rest of the pattern;
    an iteration that consumes nothing is rejected.  Every accepted
    iteration shortens the input, so fuel above the input length is never
    used up (lemma [star_fuel] below). *)
Fixpoint repeatMatcher (step : matcher) (fuel : nat) : matcher :=
  fun s caps k =>
    match fuel with
    | O => k s caps
    | S fuel' =>
        match step s caps
                (fun s1 caps1 =>
                   if (length s1 <? length s)%nat
                   then repeatMatcher step fuel' s1 caps1 k
                   else None) with
        | Some x => Some x
        | None => k s caps
        end
    end.

Fixpoint compile (r : regex) : matcher :=
  fun s caps k =>
    match r with
    | Class p =>
        match s with
        | c :: s' => if p c then k s' caps else None
        | [] => None
        end
    | Seq r1 r2 => compile r1 s caps (fun s1 caps1 => compile r2 s1 caps1 k)
    | Alt r1 r2 =>
        match compile r1 s caps k with
        | Some x => Some x
        | None => compile r2 s caps k
        end
    | Star r1 => repeatMatcher (compile r1) (S (length s)) s caps k
    | Group n r1 =>
        compile r1 s caps
          (fun s1 caps1 => k s1 ((n, firstn (length s - length s1) s) :: caps1))
    | EndOfInput =>
        match s with
        | [] => k s caps
        | _ :: _ => None
        end
    end.
End Matcher.

(** A match of [r] that starts at the head of [s]: the unmatched rest and
    the captures. *)
Definition matchAt (r : regex) (s : jsstring) : option (jsstring * captures) :=
  compile r s [] (fun rest caps => Some (rest, caps)).

(** [s.match(r)] for a regex without the [g] flag: the captures of the
    leftmost match, or [null]. *)
Fixpoint matchFirst (r : regex) (s : jsstring) : option captures :=
  match matchAt r s with
  | Some (_, caps) => Some caps
  | None =>
      match s with
      | [] => None
      | _ :: s' => matchFirst r s'
      end
  end.

(** [while ((match = r.exec(s)) !== null)] for a regex with the [g] flag:
    the captures of the successive matches.  [skip] is the number of code
    units still to pass before [lastIndex].  A match of a pattern that
    cannot match the empty string is non-empty (lemma [matchAt_nonempty]
    below), so [lastIndex] always advances for such a pattern. *)
Fixpoint execAll (r : regex) (s : jsstring) (skip : nat) : list captures :=
  match skip with
  | S skip' =>
      match s with
      | [] => []
      | _ :: s' => execAll r s' skip'
      end
  | O =>
      match matchAt r s with
      | Some (rest, caps) =>
          caps :: match s with
                  | [] => []
                  | _ :: s' => execAll r s' (length s - length rest - 1)
                  end
      | None =>
          match s with
          | [] => []
          | _ :: s' => execAll r s' 0
          end
      end
  end.

End JS.

(* ===================================================================== *)
(** ** src/lib/m3u-parser.ts *)
(* ===================================================================== *)

Module M3UParser.
Import JS.

Record Channel := {
  id : jsstring;
  name : jsstring;
  url : jsstring;
  group : option jsstring;
  logo : option jsstring;
  country : option jsstring;
  language : option jsstring;
  tvgId : option jsstring;
  tvgName : option jsstring
}.

Record ParsedPlaylist := {
  channels : list Channel;
  totalChannels : nat
}.

(** The pattern of [extractAttributes], written with [Q] for the double
    quote and a space after each star that a parenthesis follows:
    [/(\w+(?:-\w+)* )=(?:Q([^Q]* )Q|([^\s,]+))/g] *)
Definition attributeRegex : regex :=
  Seq (Group 1 (Seq (Plus (Class isWordChar))
                    (Star (Seq (Chr 45) (Plus (Class isWordChar))))))
      (Seq (Chr 61)
           (Alt (Seq (Chr dquote) (Seq (Group 2 (Star (NotChr dquote))) (Chr dquote)))
                (Group 3 (Plus (Class (fun c => negb (isWhiteSpace c || (c =? comma)))))))).

(** The pattern of the channel name: [/,([^,]* )$/] *)
Definition nameRegex : regex :=
  Seq (Chr comma) (Seq (Group 1 (Star (NotChr comma))) EndOfInput).

(** [a || b] on an optional string and a string. *)
Definition orElse (a : option jsstring) (b : jsstring) : jsstring :=
  match a with
  | Some s => if truthy s then s else b
  | None => b
  end.

(** [attributes[key] = value] on an object created by [{}]: an own property
    is written, except for [__proto__], where the inherited setter ignores a
    string value. *)
Definition setAttribute (attributes : gmap jsstring jsstring)
    (key value : jsstring) : gmap jsstring jsstring :=
  if bool_decide (key = lit "__proto__") then attributes
  else <[key := value]> attributes.

Definition extractAttributes (line : jsstring) : gmap jsstring jsstring :=
  fold_left
    (fun attributes caps =>
       let key := default [] (capture caps 1) in
       let value := orElse (capture caps 2) (orElse (capture caps 3) []) in
       setAttribute attributes key value)
    (execAll attributeRegex line 0) ∅.

Definition generateChannelId (name url : jsstring) : completion jsstring :=
  let combined := name ++ url in
  let* encoded := btoa combined in
  Ok (substring0 16 (List.filter isAlphaNum encoded)).

(** The body of the [try] block of [parseExtInfLine].  None of the six
    attribute names read here is a property of [Object.prototype], so each
    read is the own property or [undefined]. *)
Definition parseExtInfLine_try (extinfLine urlLine : jsstring) : completion Channel :=
  let attributes := extractAttributes extinfLine in
  let nameMatch := matchFirst nameRegex extinfLine in
  let name :=
    match nameMatch with
    | Some caps => trim (default [] (capture caps 1))
    | None => lit "Unknown Channel"
    end in
  let* id := generateChannelId name urlLine in
  Ok {| id := id;
        name := name;
        url := trim urlLine;
        group := attributes !! lit "group-title";
        logo := attributes !! lit "tvg-logo";
        country := attributes !! lit "tvg-country";
        language := attributes !! lit "tvg-language";
        tvgId := attributes !! lit "tvg-id";
        tvgName := attributes !! lit "tvg-name" |}.

(** [parseExtInfLine]: [null] when the body throws. *)
Definition parseExtInfLine (extinfLine urlLine : jsstring) : option Channel :=
  try_catch
    (let* channel := parseExtInfLine_try extinfLine urlLine in Ok (Some channel))
    (fun _ => None).

Definition isExtInf (line : jsstring) : bool := startsWith line (lit "#EXTINF:").
Definition isComment (line : jsstring) : bool := startsWith line (lit "#").

(** The [for] loop of [parseFromContent] over the remaining lines: the
    [i++] inside the body passes over the URL line. *)
Fixpoint parseLines (lines : list jsstring) : list Channel :=
  match lines with
  | [] => []
  | line :: rest =>
      if isExtInf line then
        match rest with
        | nextLine :: rest' =>
            if truthy nextLine && negb (isComment nextLine) then
              match parseExtInfLine line nextLine with
              | Some channel => channel :: parseLines rest'
              | None => parseLines rest'
              end
            else parseLines rest
        | [] => parseLines rest
        end
      else parseLines rest
  end.

(** [content.split('\n').map(line => line.trim()).filter(line => line)] *)
Definition splitLines (content : jsstring) : list jsstring :=
  List.filter truthy (List.map trim (split newline content)).

Definition parseFromContent (content : jsstring) : ParsedPlaylist :=
  let lines := splitLines content in
  let channels := parseLines lines in
  {| channels := channels; totalChannels := length channels |}.

(** The names [Object.prototype] defines.  An object created by [{}]
    inherits them: reading one of them where the object has no own property
    of that name yields the inherited member, which is truthy and has no
    [push]. *)
Definition objectPrototypeKeys : list jsstring :=
  [ lit "constructor"; lit "__defineGetter__"; lit "__defineSetter__";
    lit "hasOwnProperty"; lit "__lookupGetter__"; lit "__lookupSetter__";
    lit "isPrototypeOf"; lit "propertyIsEnumerable"; lit "toString";
    lit "valueOf"; lit "__proto__"; lit "toLocaleString" ].

Inductive property (V : Type) :=
| OwnValue (v : V)
| Inherited
| Undefined.
Arguments OwnValue {V} v.
Arguments Inherited {V}.
Arguments Undefined {V}.

(** [object[key]] on an object created by [{}] whose own properties are
    [own]. *)
Definition getProperty {V} (own : gmap jsstring V) (key : jsstring) : property V :=
  match own !! key with
  | Some v => OwnValue v
  | None => if includes objectPrototypeKeys key then Inherited else Undefined
  end.

(** [channel.group || 'Uncategorized'] *)
Definition categoryOf (channel : Channel) : jsstring :=
  orElse (group channel) (lit "Uncategorized").

(** The callback of [channels.forEach] in [groupChannelsByCategory], on the
    own properties of [grouped].  An own property is an array, which is
    truthy, so the array is created only where the read is [undefined];
    on an inherited member the call of [push] throws a [TypeError]. *)
Definition groupChannel (grouped : gmap jsstring (list Channel)) (channel : Channel)
  : completion (gmap jsstring (list Channel)) :=
  let category := categoryOf channel in
  match getProperty grouped category with
  | Undefined => Ok (<[category := [] ++ [channel]]> grouped)
  | OwnValue members => Ok (<[category := members ++ [channel]]> grouped)
  | Inherited => Throw TypeError
  end.

(** [array.forEach(callback)] where the callback updates [acc] and may
    throw. *)
Fixpoint forEach {A S} (callback : S -> A -> completion S) (array : list A) (acc : S)
  : completion S :=
  match array with
  | [] => Ok acc
  | x :: array' => let* acc' := callback acc x in forEach callback array' acc'
  end.

Definition groupChannelsByCategory (channels : list Channel)
  : completion (gmap jsstring (list Channel)) :=
  forEach groupChannel channels ∅.

End M3UParser.

(* ===================================================================== *)
(** ** Facts about the string primitives *)
(* ===================================================================== *)

Module JSFacts.
Import JS.

(** Induction over a list two elements at a time, the shape of a loop that
    may pass over the next element. *)
Lemma list_pair_ind {A} (P : list A -> Prop) :
  P [] ->
  (forall x, P [x]) ->
  (forall x y l, P l -> P (y :: l) -> P (x :: y :: l)) ->
  forall l, P l.
Proof.
  intros Hnil Hone Hstep.
  assert (H : forall l, P l /\ forall x, P (x :: l)).
  { induction l as [|y l [IH1 IH2]]; split; auto. }
  intros l. apply H.
Qed.

Definition headNotSpace (s : jsstring) : Prop :=
  match s with
  | c :: _ => isWhiteSpace c = false
  | [] => True
  end.

Lemma trimStart_head s : headNotSpace (trimStart s).
Proof.
  induction s as [|c s IH]; simpl; [exact I|].
  destruct (isWhiteSpace c) eqn:E; [exact IH | exact E].
Qed.

Lemma trimStart_fixed s : headNotSpace s -> trimStart s = s.
Proof.
  destruct s as [|c s]; simpl; [reflexivity|].
  intros ->. reflexivity.
Qed.

Lemma trimStart_suffix s :
  exists w, s = w ++ trimStart s /\ forallb isWhiteSpace w = true.
Proof.
  induction s as [|c s (w & Hw & Hall)]; simpl.
  - exists []. split; reflexivity.
  - destruct (isWhiteSpace c) eqn:E.
    + exists (c :: w). simpl. rewrite E, Hall. split; [congruence | reflexivity].
    + exists []. split; reflexivity.
Qed.

Lemma trimEnd_prefix s :
  exists w, s = trimEnd s ++ w /\ forallb isWhiteSpace w = true.
Proof.
  unfold trimEnd.
  destruct (trimStart_suffix (rev s)) as (w & Hw & Hall).
  exists (rev w). split.
  - rewrite <- rev_app_distr, <- Hw, rev_involutive. reflexivity.
  - rewrite forallb_forall in *. intros x Hx. apply Hall, in_rev, Hx.
Qed.

Lemma trimEnd_head s : headNotSpace s -> headNotSpace (trimEnd s).
Proof.
  intros Hs. destruct (trimEnd_prefix s) as (w & Hw & _).
  destruct (trimEnd s) as [|c t]; [exact I|].
  rewrite Hw in Hs. exact Hs.
Qed.

Lemma trimEnd_idempotent s : trimEnd (trimEnd s) = trimEnd s.
Proof.
  unfold trimEnd. rewrite rev_involutive.
  rewrite (trimStart_fixed (trimStart (rev s))); [reflexivity|].
  apply trimStart_head.
Qed.

Lemma trim_head s : headNotSpace (trim s).
Proof. apply trimEnd_head, trimStart_head. Qed.

(** [trim] leaves a trimmed string unchanged. *)
Lemma trim_idempotent s : trim (trim s) = trim s.
Proof.
  unfold trim at 1. rewrite (trimStart_fixed (trim s)) by apply trim_head.
  unfold trim. apply trimEnd_idempotent.
Qed.

Lemma split_nonempty sep s : split sep s <> [].
Proof.
  destruct s as [|c s]; simpl; [discriminate|].
  destruct (c =? sep); [discriminate|].
  destruct (split sep s); discriminate.
Qed.

(** Splitting distributes over a separator. *)
Lemma split_app sep a b :
  split sep (a ++ sep :: b) = split sep a ++ split sep b.
Proof.
  induction a as [|c a IH]; simpl.
  - rewrite N.eqb_refl. reflexivity.
  - destruct (c =? sep); [rewrite IH; reflexivity|].
    rewrite IH. pose proof (split_nonempty sep a) as Hne.
    destruct (split sep a); [contradiction | reflexivity].
Qed.

(** A string without the separator is one segment. *)
Lemma split_single sep s : ~ In sep s -> split sep s = [s].
Proof.
  induction s as [|c s IH]; simpl; [reflexivity|].
  intros Hn. destruct (N.eqb_spec c sep) as [->|_]; [tauto|].
  rewrite IH by tauto. reflexivity.
Qed.

Lemma startsWith_app s p q : startsWith s (p ++ q) = true -> startsWith s p = true.
Proof.
  revert s. induction p as [|c p IH]; intros s; simpl; [reflexivity|].
  destruct s as [|d s]; [discriminate|].
  rewrite !andb_true_iff. intros [H1 H2]. split; [exact H1 | apply IH, H2].
Qed.

Lemma includes_In l x : includes l x = true <-> In x l.
Proof.
  unfold includes. rewrite existsb_exists. split.
  - intros (y & Hy & Heq). apply bool_decide_eq_true in Heq. subst. exact Hy.
  - intros H. exists x. split; [exact H | apply bool_decide_eq_true; reflexivity].
Qed.

(** *** The repetition never runs out of fuel *)

Section MatcherFuel.
Context {R : Type}.

(** A matcher that uses its continuation only through its results. *)
Definition extensional (m : @matcher R) : Prop :=
  forall s caps k k',
    (forall s1 caps1, k s1 caps1 = k' s1 caps1) -> m s caps k = m s caps k'.

Lemma repeatMatcher_extensional step fuel :
  extensional step -> extensional (repeatMatcher step fuel).
Proof.
  intros Hstep. induction fuel as [|fuel IH]; intros s caps k k' Hk; cbn [repeatMatcher].
  - apply Hk.
  - rewrite Hk.
    rewrite (Hstep s caps _
               (fun s1 caps1 =>
                  if (length s1 <? length s)%nat
                  then repeatMatcher step fuel s1 caps1 k' else None)).
    + reflexivity.
    + intros s1 caps1. destruct (length s1 <? length s)%nat; [|reflexivity].
      apply IH, Hk.
Qed.

Lemma compile_extensional r : extensional (compile r).
Proof.
  induction r as [p | r1 IH1 r2 IH2 | r1 IH1 r2 IH2 | r1 IH1 | n r1 IH1 |];
    intros s caps k k' Hk; cbn [compile].
  - destruct s as [|c s']; [reflexivity|]. destruct (p c); [apply Hk | reflexivity].
  - apply IH1. intros s1 caps1. apply IH2, Hk.
  - rewrite (IH1 s caps k k' Hk), (IH2 s caps k k' Hk). reflexivity.
  - apply repeatMatcher_extensional; assumption.
  - apply IH1. intros s1 caps1. apply Hk.
  - destruct s; [apply Hk | reflexivity].
Qed.

(** Fuel above the length of the input is as good as any larger fuel: the
    bound in [compile] cuts no repetition short. *)
Lemma repeatMatcher_fuel step :
  extensional step ->
  forall fuel s caps k,
    (length s < fuel)%nat ->
    repeatMatcher step fuel s caps k = repeatMatcher step (S fuel) s caps k.
Proof.
  intros Hstep. induction fuel as [|fuel IH]; intros s caps k Hlen; [lia|].
  cbn [repeatMatcher].
  rewrite (Hstep s caps _
             (fun s1 caps1 =>
                if (length s1 <? length s)%nat
                then repeatMatcher step (S fuel) s1 caps1 k else None)).
  - reflexivity.
  - intros s1 caps1. destruct (Nat.ltb_spec (length s1) (length s)); [|reflexivity].
    apply IH. lia.
Qed.

Lemma star_fuel r s caps (k : @continuation R) extra :
  compile (Star r) s caps k
  = repeatMatcher (compile r) (S (length s) + extra) s caps k.
Proof.
  cbn [compile]. induction extra as [|extra IH].
  - rewrite Nat.add_0_r. reflexivity.
  - rewrite IH, Nat.add_succ_r.
    apply repeatMatcher_fuel; [apply compile_extensional | lia].
Qed.

End MatcherFuel.

(** *** A match consumes input *)

(** A pattern that can match the empty string. *)
Fixpoint nullable (r : regex) : bool :=
  match r with
  | Class _ => false
  | Seq r1 r2 => nullable r1 && nullable r2
  | Alt r1 r2 => nullable r1 || nullable r2
  | Star _ => true
  | Group _ r1 => nullable r1
  | EndOfInput => true
  end.

Section MatcherProgress.
Context {R : Type}.

(** The continuation is reached on a rest no longer than the input, and
    on a shorter one when [strict] holds. *)
Definition consumes (strict : bool) (m : @matcher R) : Prop :=
  forall s caps k x,
    m s caps k = Some x ->
    exists s1 caps1,
      k s1 caps1 = Some x
      /\ (length s1 <= length s)%nat
      /\ (strict = true -> (length s1 < length s)%nat).

Lemma repeatMatcher_consumes step fuel :
  consumes false step -> consumes false (repeatMatcher step fuel).
Proof.
  intros Hstep. induction fuel as [|fuel IH]; intros s caps k x Hrun.
  - exists s, caps. split; [exact Hrun|]. split; [lia | discriminate].
  - cbn [repeatMatcher] in Hrun.
    match type of Hrun with
    | match ?call with _ => _ end = _ => destruct call as [y|] eqn:Hcall
    end.
    + injection Hrun as ->.
      destruct (Hstep _ _ _ _ Hcall) as (s1 & caps1 & Hk & Hle & _).
      destruct (length s1 <? length s)%nat; [|discriminate].
      destruct (IH _ _ _ _ Hk) as (s2 & caps2 & Hk2 & Hle2 & _).
      exists s2, caps2. split; [exact Hk2|]. split; [lia | discriminate].
    + exists s, caps. split; [exact Hrun|]. split; [lia | discriminate].
Qed.

Lemma compile_consumes r : consumes (negb (nullable r)) (compile r).
Proof.
  induction r as [p | r1 IH1 r2 IH2 | r1 IH1 r2 IH2 | r1 IH1 | n r1 IH1 |];
    intros s caps k x Hrun; cbn [compile nullable] in *.
  - destruct s as [|c s']; [discriminate|]. destruct (p c); [|discriminate].
    exists s', caps. cbn [length]. split; [exact Hrun|]. split; intros; lia.
  - destruct (IH1 _ _ _ _ Hrun) as (s1 & caps1 & Hk1 & Hle1 & Hlt1).
    destruct (IH2 _ _ _ _ Hk1) as (s2 & caps2 & Hk2 & Hle2 & Hlt2).
    exists s2, caps2. split; [exact Hk2|]. split; [lia|].
    intros Hstrict. destruct (nullable r1); cbn [negb andb] in *.
    + specialize (Hlt2 Hstrict). lia.
    + specialize (Hlt1 eq_refl). lia.
  - destruct (compile r1 s caps k) as [y|] eqn:Hleft.
    + injection Hrun as ->.
      destruct (IH1 _ _ _ _ Hleft) as (s1 & caps1 & Hk1 & Hle1 & Hlt1).
      exists s1, caps1. split; [exact Hk1|]. split; [exact Hle1|].
      intros Hstrict. apply Hlt1. destruct (nullable r1); [discriminate | reflexivity].
    + destruct (IH2 _ _ _ _ Hrun) as (s1 & caps1 & Hk1 & Hle1 & Hlt1).
      exists s1, caps1. split; [exact Hk1|]. split; [exact Hle1|].
      intros Hstrict. apply Hlt1.
      destruct (nullable r1); [discriminate|]. exact Hstrict.
  - assert (Hstep : consumes false (compile r1)).
    { intros s0 caps0 k0 x0 H0.
      destruct (IH1 _ _ _ _ H0) as (s1 & caps1 & Hk1 & Hle1 & _).
      exists s1, caps1. split; [exact Hk1|]. split; [exact Hle1 | discriminate]. }
    exact (repeatMatcher_consumes _ (S (length s)) Hstep _ _ _ _ Hrun).
  - destruct (IH1 _ _ _ _ Hrun) as (s1 & caps1 & Hk1 & Hle1 & Hlt1).
    exists s1, ((n, firstn (length s - length s1) s) :: caps1).
    split; [exact Hk1|]. split; assumption.
  - destruct s; [|discriminate]. exists [], caps.
    split; [exact Hrun|]. split; [cbn; lia | discriminate].
Qed.

End MatcherProgress.

(** A match of a pattern that is not nullable is non-empty. *)
Lemma matchAt_nonempty r s rest caps :
  nullable r = false ->
  matchAt r s = Some (rest, caps) -> (length rest < length s)%nat.
Proof.
  intros Hnull Hm. unfold matchAt in Hm.
  destruct (compile_consumes r _ _ _ _ Hm) as (s1 & caps1 & [= <- _] & _ & Hlt).
  apply Hlt. rewrite Hnull. reflexivity.
Qed.

(** *** Strings within Latin-1 *)

Lemma isLatin1_In s : isLatin1 s = true <-> forall c, In c s -> (c <=? 255) = true.
Proof. unfold isLatin1. apply forallb_forall. Qed.

Lemma isLatin1_app s t : isLatin1 (s ++ t) = isLatin1 s && isLatin1 t.
Proof. unfold isLatin1. apply forallb_app. Qed.

Lemma isLatin1_incl s t : incl s t -> isLatin1 t = true -> isLatin1 s = true.
Proof. rewrite !isLatin1_In. intros Hi Ht c Hc. apply Ht, Hi, Hc. Qed.

Lemma isLatin1_firstn n s : isLatin1 s = true -> isLatin1 (firstn n s) = true.
Proof.
  apply isLatin1_incl. intros c Hc. rewrite <- (firstn_skipn n s).
  apply in_or_app. left. exact Hc.
Qed.

Lemma isLatin1_trim s : isLatin1 s = true -> isLatin1 (trim s) = true.
Proof.
  apply isLatin1_incl. intros c Hc. unfold trim in Hc.
  destruct (trimEnd_prefix (trimStart s)) as (w1 & H1 & _).
  destruct (trimStart_suffix s) as (w2 & H2 & _).
  rewrite H2. apply in_or_app. right. rewrite H1. apply in_or_app. left. exact Hc.
Qed.

Lemma isLatin1_split sep s seg :
  isLatin1 s = true -> In seg (split sep s) -> isLatin1 seg = true.
Proof.
  revert seg. induction s as [|c s IH]; intros seg Hs Hin.
  - destruct Hin as [<- | []]. reflexivity.
  - cbn [isLatin1 forallb] in Hs. apply andb_true_iff in Hs as [Hc Hs].
    cbn [split] in Hin. destruct (c =? sep).
    + destruct Hin as [<- | Hin]; [reflexivity | apply IH; assumption].
    + destruct (split sep s) as [|seg0 segs] eqn:E.
      * destruct Hin as [<- | []]. cbn. rewrite Hc. reflexivity.
      * destruct Hin as [<- | Hin].
        -- cbn [isLatin1 forallb]. rewrite Hc. apply (IH seg0 Hs). left. reflexivity.
        -- apply (IH seg Hs). right. exact Hin.
Qed.

(** Captures that are all within Latin-1. *)
Definition capturesLatin1 (caps : captures) : bool :=
  forallb (fun p => isLatin1 (snd p)) caps.

Lemma capture_latin1 caps n c :
  capturesLatin1 caps = true -> capture caps n = Some c -> isLatin1 c = true.
Proof.
  induction caps as [|[m s] caps IH]; cbn [capture capturesLatin1 forallb snd];
    [discriminate|].
  intros H. apply andb_true_iff in H as [Hs Hcaps].
  destruct (Nat.eqb m n); [intros [= <-]; exact Hs | apply IH, Hcaps].
Qed.

Section MatcherLatin1.
Context {R : Type}.

(** A matcher hands its continuation a rest and captures within Latin-1
    when it was given such. *)
Definition keepsLatin1 (m : @matcher R) : Prop :=
  forall s caps k x,
    m s caps k = Some x ->
    isLatin1 s = true -> capturesLatin1 caps = true ->
    exists s1 caps1,
      isLatin1 s1 = true /\ capturesLatin1 caps1 = true /\ k s1 caps1 = Some x.

Lemma repeatMatcher_latin1 step fuel :
  keepsLatin1 step -> keepsLatin1 (repeatMatcher step fuel).
Proof.
  intros Hstep. induction fuel as [|fuel IH]; intros s caps k x Hrun Hs Hcaps.
  - exists s, caps. auto.
  - cbn [repeatMatcher] in Hrun.
    match type of Hrun with
    | match ?call with _ => _ end = _ => destruct call as [y|] eqn:Hcall
    end.
    + injection Hrun as ->.
      destruct (Hstep _ _ _ _ Hcall Hs Hcaps) as (s1 & caps1 & Hs1 & Hcaps1 & Hk).
      destruct (length s1 <? length s)%nat; [|discriminate].
      exact (IH _ _ _ _ Hk Hs1 Hcaps1).
    + exists s, caps. auto.
Qed.

Lemma compile_latin1 r : keepsLatin1 (compile r).
Proof.
  induction r as [p | r1 IH1 r2 IH2 | r1 IH1 r2 IH2 | r1 IH1 | n r1 IH1 |];
    intros s caps k x Hrun Hs Hcaps; cbn [compile] in Hrun.
  - destruct s as [|c s']; [discriminate|]. destruct (p c); [|discriminate].
    cbn [isLatin1 forallb] in Hs. apply andb_true_iff in Hs as [_ Hs].
    exists s', caps. auto.
  - destruct (IH1 _ _ _ _ Hrun Hs Hcaps) as (s1 & caps1 & Hs1 & Hcaps1 & Hk).
    exact (IH2 _ _ _ _ Hk Hs1 Hcaps1).
  - destruct (compile r1 s caps k) as [y|] eqn:Hleft.
    + injection Hrun as ->. exact (IH1 _ _ _ _ Hleft Hs Hcaps).
    + exact (IH2 _ _ _ _ Hrun Hs Hcaps).
  - exact (repeatMatcher_latin1 _ _ IH1 _ _ _ _ Hrun Hs Hcaps).
  - destruct (IH1 _ _ _ _ Hrun Hs Hcaps) as (s1 & caps1 & Hs1 & Hcaps1 & Hk).
    exists s1, ((n, firstn (length s - length s1) s) :: caps1).
    split; [exact Hs1|]. split; [|exact Hk].
    cbn [capturesLatin1 forallb snd]. fold (capturesLatin1 caps1).
    rewrite Hcaps1, isLatin1_firstn by exact Hs. reflexivity.
  - destruct s; [|discriminate]. exists [], caps. auto.
Qed.

End MatcherLatin1.

Lemma matchFirst_latin1 r s caps :
  matchFirst r s = Some caps -> isLatin1 s = true -> capturesLatin1 caps = true.
Proof.
  induction s as [|c s IH]; cbn [matchFirst]; unfold matchAt.
  - destruct (compile r [] [] _) as [[rest caps0]|] eqn:Hrun; [|discriminate].
    intros [= <-] Hs.
    destruct (compile_latin1 r _ _ _ _ Hrun Hs eq_refl) as (s1 & caps1 & _ & Hc & [= _ <-]).
    exact Hc.
  - destruct (compile r (c :: s) [] _) as [[rest caps0]|] eqn:Hrun.
    + intros [= <-] Hs.
      destruct (compile_latin1 r _ _ _ _ Hrun Hs eq_refl) as (s1 & caps1 & _ & Hc & [= _ <-]).
      exact Hc.
    + intros Hm Hs. cbn [isLatin1 forallb] in Hs. apply andb_true_iff in Hs as [_ Hs].
      exact (IH Hm Hs).
Qed.

End JSFacts.

(* ===================================================================== *)
(** ** The playlist parser: counting, identifiers, failures *)
(* ===================================================================== *)

Module ParserFacts.
Import JS JSFacts M3UParser.

(** The attribute pattern never matches the empty string, so the [while]
    loop of [extractAttributes] advances at every match and ends. *)
Lemma attributeRegex_match_nonempty s rest caps :
  matchAt attributeRegex s = Some (rest, caps) -> (length rest < length s)%nat.
Proof. apply matchAt_nonempty. reflexivity. Qed.

(** The count the specification names: the lines that start with
    [#EXTINF:] and are immediately followed by a non-comment line, over
    the trimmed non-blank lines. *)
Fixpoint countMarkedPairs (lines : list jsstring) : nat :=
  match lines with
  | [] => 0
  | line :: rest =>
      match rest with
      | nextLine :: _ =>
          (if isExtInf line && negb (isComment nextLine) then 1 else 0)
          + countMarkedPairs rest
      | [] => 0
      end
  end.

(** The same count restricted to the pairs [parseExtInfLine] accepts. *)
Fixpoint countParsedPairs (lines : list jsstring) : nat :=
  match lines with
  | [] => 0
  | line :: rest =>
      match rest with
      | nextLine :: _ =>
          (if isExtInf line && negb (isComment nextLine)
              && bool_decide (is_Some (parseExtInfLine line nextLine))
           then 1 else 0)
          + countParsedPairs rest
      | [] => 0
      end
  end.

(** What one marker line and its URL line contribute to the result. *)
Definition entryChannels (extinfLine urlLine : jsstring) : list Channel :=
  match parseExtInfLine_try extinfLine urlLine with
  | Ok channel => [channel]
  | Throw _ => []
  end.

Lemma parseExtInfLine_entry e u :
  match parseExtInfLine e u with Some c => [c] | None => [] end = entryChannels e u.
Proof.
  unfold parseExtInfLine, entryChannels, try_catch, bind.
  destruct (parseExtInfLine_try e u); reflexivity.
Qed.

Lemma parseExtInfLine_Some e u c :
  parseExtInfLine e u = Some c <-> parseExtInfLine_try e u = Ok c.
Proof.
  unfold parseExtInfLine, try_catch, bind.
  destruct (parseExtInfLine_try e u); split; congruence.
Qed.

Lemma isExtInf_isComment line : isExtInf line = true -> isComment line = true.
Proof. apply (startsWith_app line (lit "#") (lit "EXTINF:")). Qed.

Lemma splitLines_trimmed content :
  Forall (fun line => truthy line = true /\ trim line = line) (splitLines content).
Proof.
  unfold splitLines. apply List.Forall_forall. intros line Hin.
  apply filter_In in Hin as [Hin Ht]. split; [exact Ht|].
  apply in_map_iff in Hin as (raw & <- & _). apply trim_idempotent.
Qed.

Lemma splitLines_app a b :
  splitLines (a ++ newline :: b) = splitLines a ++ splitLines b.
Proof.
  unfold splitLines. rewrite split_app, List.map_app, List.filter_app. reflexivity.
Qed.

Lemma splitLines_single s :
  ~ In newline s -> truthy (trim s) = true -> splitLines s = [trim s].
Proof.
  intros Hn Ht. unfold splitLines. rewrite split_single by exact Hn.
  simpl. rewrite Ht. reflexivity.
Qed.

(** A comment line is never taken as a URL line, so the loop restarts
    afresh on it. *)
Lemma parseLines_app_comment l1 h t :
  isComment h = true ->
  parseLines (l1 ++ h :: t) = parseLines l1 ++ parseLines (h :: t).
Proof.
  intros Hh. induction l1 as [| x | x y l IHl IHyl] using list_pair_ind.
  - reflexivity.
  - cbn [app parseLines]. rewrite Hh, andb_false_r.
    destruct (isExtInf x); reflexivity.
  - change ((x :: y :: l) ++ h :: t) with (x :: y :: (l ++ h :: t)).
    cbn [parseLines]. cbn [app] in IHyl.
    destruct (isExtInf x); [|exact IHyl].
    destruct (truthy y && negb (isComment y)); [|exact IHyl].
    destruct (parseExtInfLine x y); rewrite IHl; reflexivity.
Qed.

(** The loop treats an entry on its own: whatever comes before and after
    a marker line with its URL line is parsed as if the entry were absent. *)
Lemma parseLines_entry l1 e u l2 :
  isExtInf e = true -> truthy u = true -> isComment u = false ->
  parseLines (l1 ++ e :: u :: l2)
  = parseLines l1 ++ entryChannels e u ++ parseLines l2.
Proof.
  intros He Hu Hc.
  rewrite parseLines_app_comment by (apply isExtInf_isComment, He).
  f_equal. cbn [parseLines]. rewrite He, Hu, Hc. cbn [negb andb].
  rewrite <- parseExtInfLine_entry.
  destruct (parseExtInfLine e u); reflexivity.
Qed.

(** Every channel of the result is what [parseExtInfLine] returned for a
    marker line and a URL line of the input. *)
Lemma parseLines_In lines c :
  In c (parseLines lines) ->
  exists e u, In e lines /\ In u lines /\ parseExtInfLine e u = Some c.
Proof.
  induction lines as [| x | x y l IHl IHyl] using list_pair_ind.
  - intros [].
  - cbn [parseLines]. destruct (isExtInf x); intros [].
  - cbn [parseLines].
    assert (Hyl : In c (parseLines (y :: l)) ->
                  exists e u, In e (x :: y :: l) /\ In u (x :: y :: l)
                              /\ parseExtInfLine e u = Some c).
    { intros H. destruct (IHyl H) as (e & u & He & Hu & Hp).
      exists e, u. split; [right; exact He|]. split; [right; exact Hu | exact Hp]. }
    destruct (isExtInf x); [|exact Hyl].
    destruct (truthy y && negb (isComment y)); [|exact Hyl].
    assert (Hl : In c (parseLines l) ->
                 exists e u, In e (x :: y :: l) /\ In u (x :: y :: l)
                             /\ parseExtInfLine e u = Some c).
    { intros H. destruct (IHl H) as (e & u & He & Hu & Hp).
      exists e, u. split; [right; right; exact He|].
      split; [right; right; exact Hu | exact Hp]. }
    destruct (parseExtInfLine x y) as [c0|] eqn:Hp; [|exact Hl].
    intros [<- | H]; [|exact (Hl H)].
    exists x, y. split; [left; reflexivity|].
    split; [right; left; reflexivity | exact Hp].
Qed.

(** The loop keeps exactly the entries [parseExtInfLine] accepts. *)
Lemma parseLines_length lines :
  Forall (fun line => truthy line = true) lines ->
  length (parseLines lines) = countParsedPairs lines.
Proof.
  induction lines as [| x | x y l IHl IHyl] using list_pair_ind; intros Hall.
  - reflexivity.
  - cbn [parseLines]. destruct (isExtInf x); reflexivity.
  - apply Forall_inv_tail in Hall as Hyl. apply Forall_inv_tail in Hyl as Hl.
    apply Forall_inv in Hyl as Hy.
    specialize (IHl Hl). specialize (IHyl Hyl).
    cbn [parseLines]. rewrite Hy. cbn [andb].
    change (countParsedPairs (x :: y :: l))
      with ((if isExtInf x && negb (isComment y)
                && bool_decide (is_Some (parseExtInfLine x y))
             then 1 else 0) + countParsedPairs (y :: l))%nat.
    destruct (isExtInf x); cbn [andb]; [|exact IHyl].
    destruct (isComment y) eqn:Hc; cbn [negb andb]; [exact IHyl|].
    assert (Hskip : countParsedPairs (y :: l) = countParsedPairs l).
    { destruct l as [|z l']; [reflexivity|].
      cbn [countParsedPairs].
      assert (isExtInf y = false) as ->; [|reflexivity].
      destruct (isExtInf y) eqn:E; [|reflexivity].
      apply isExtInf_isComment in E. congruence. }
    rewrite Hskip.
    destruct (parseExtInfLine x y) as [c|].
    + rewrite bool_decide_eq_true_2 by (eexists; reflexivity).
      cbn [length]. rewrite IHl. reflexivity.
    + rewrite bool_decide_eq_false_2 by (intros [? ?]; discriminate).
      rewrite IHl. reflexivity.
Qed.

(** A string that holds no line break. *)
Definition singleLine (s : jsstring) : bool :=
  forallb (fun c => negb (c =? newline)) s.

Lemma singleLine_no_newline s : singleLine s = true -> ~ In newline s.
Proof.
  unfold singleLine. rewrite forallb_forall. intros H Hin.
  specialize (H _ Hin). rewrite N.eqb_refl in H. discriminate.
Qed.

(** The number of channels is the number of marked pairs whose entry
    [parseExtInfLine] accepts, and [totalChannels] is that number. *)
Lemma parseFromContent_count content :
  totalChannels (parseFromContent content) = countParsedPairs (splitLines content)
  /\ length (channels (parseFromContent content)) = countParsedPairs (splitLines content).
Proof.
  assert (H : length (parseLines (splitLines content))
              = countParsedPairs (splitLines content)).
  { apply parseLines_length.
    eapply List.Forall_impl; [|apply splitLines_trimmed]. intros line [Ht _]. exact Ht. }
  split; exact H.
Qed.

(** On a marker line and a URL line within Latin-1 the body of
    [parseExtInfLine] does not throw. *)
Lemma parseExtInfLine_latin1 e u :
  isLatin1 e = true -> isLatin1 u = true -> is_Some (parseExtInfLine e u).
Proof.
  intros He Hu. unfold parseExtInfLine, parseExtInfLine_try, generateChannelId, btoa.
  set (name := match matchFirst nameRegex e with
               | Some caps => trim (default [] (capture caps 1))
               | None => lit "Unknown Channel"
               end).
  assert (Hname : isLatin1 name = true).
  { subst name. destruct (matchFirst nameRegex e) as [caps|] eqn:Hm; [|reflexivity].
    apply isLatin1_trim. pose proof (matchFirst_latin1 _ _ _ Hm He) as Hcaps.
    destruct (capture caps 1) as [c|] eqn:Hc; [|reflexivity].
    exact (capture_latin1 _ _ _ Hcaps Hc). }
  rewrite isLatin1_app, Hname, Hu. cbn [andb bind try_catch]. eexists. reflexivity.
Qed.

Lemma countParsedPairs_latin1 lines :
  Forall (fun line => isLatin1 line = true) lines ->
  countParsedPairs lines = countMarkedPairs lines.
Proof.
  induction lines as [|x l IH]; intros Hall; [reflexivity|].
  apply Forall_cons_1 in Hall as [Hx Hl]. specialize (IH Hl).
  destruct l as [|y l']; [reflexivity|].
  change (countParsedPairs (x :: y :: l'))
    with ((if isExtInf x && negb (isComment y)
              && bool_decide (is_Some (parseExtInfLine x y))
           then 1 else 0) + countParsedPairs (y :: l'))%nat.
  change (countMarkedPairs (x :: y :: l'))
    with ((if isExtInf x && negb (isComment y) then 1 else 0)
          + countMarkedPairs (y :: l'))%nat.
  rewrite IH. apply Forall_cons_1 in Hl as [Hy _].
  rewrite (bool_decide_eq_true_2 _ (parseExtInfLine_latin1 x y Hx Hy)).
  rewrite andb_true_r. reflexivity.
Qed.

Lemma splitLines_latin1 content :
  isLatin1 content = true ->
  Forall (fun line => isLatin1 line = true) (splitLines content).
Proof.
  intros Hc. apply List.Forall_forall. intros line Hin. unfold splitLines in Hin.
  apply filter_In in Hin as [Hin _]. apply in_map_iff in Hin as (raw & <- & Hraw).
  apply isLatin1_trim, (isLatin1_split newline content raw Hc Hraw).
Qed.

(** On a playlist text within Latin-1 no entry is dropped: the number of
    channels is the number of marker lines immediately followed by a
    non-comment line. *)
Lemma parseFromContent_count_latin1 content :
  isLatin1 content = true ->
  totalChannels (parseFromContent content) = countMarkedPairs (splitLines content)
  /\ length (channels (parseFromContent content)) = countMarkedPairs (splitLines content).
Proof.
  intros Hc. rewrite <- (countParsedPairs_latin1 _ (splitLines_latin1 _ Hc)).
  apply parseFromContent_count.
Qed.

(** A playlist with one entry whose name is written in Cyrillic
    (code units 1058 and 1042). *)
Definition cyrillicPlaylist : jsstring :=
  lit "#EXTINF:-1," ++ [1058; 1042] ++ [newline] ++ lit "http://example.com/tv.m3u8".

(** C1 (evaluation at the failing input).  The playlist [cyrillicPlaylist]
    has one line starting with [#EXTINF:] that is immediately followed by a
    non-comment line, and [parseFromContent] returns no channel for it:
    [btoa] throws on the name, [parseExtInfLine] returns [null], and the
    entry is dropped. *)
Theorem parseFromContent_drops_non_latin1_entry :
  countMarkedPairs (splitLines cyrillicPlaylist) = 1%nat
  /\ parseExtInfLine_try (lit "#EXTINF:-1," ++ [1058; 1042])
                         (lit "http://example.com/tv.m3u8")
     = Throw InvalidCharacterError
  /\ channels (parseFromContent cyrillicPlaylist) = []
  /\ totalChannels (parseFromContent cyrillicPlaylist) = 0%nat.
Proof. vm_compute. repeat split; reflexivity. Qed.

(** C2.  Parsing is a function of the content alone, so identical content
    gives identical identifiers in identical order; and the identifier of
    every parsed channel is [generateChannelId] of that channel's name and
    URL, nothing else of the entry or of its position entering it. *)
Theorem parseFromContent_ids_deterministic (content1 content2 : jsstring) :
  content1 = content2 ->
  List.map id (channels (parseFromContent content1))
  = List.map id (channels (parseFromContent content2))
  /\ Forall (fun c => generateChannelId (name c) (url c) = Ok (id c))
            (channels (parseFromContent content1)).
Proof.
  intros <-. split; [reflexivity|].
  apply List.Forall_forall. intros c Hin. cbn [parseFromContent channels] in Hin.
  apply parseLines_In in Hin as (e & u & _ & Hu & Hp).
  pose proof (splitLines_trimmed content1) as Hall.
  rewrite List.Forall_forall in Hall. destruct (Hall u Hu) as [_ Htrim].
  apply parseExtInfLine_Some in Hp. unfold parseExtInfLine_try, bind in Hp.
  destruct (generateChannelId _ u) as [i|err] eqn:Hid; [|discriminate].
  injection Hp as <-. cbn [name url id]. rewrite Htrim. exact Hid.
Qed.

(** Two entries, the second with surrounding blanks and a carriage
    return. *)
Definition twoEntries : jsstring :=
  lit "#EXTM3U" ++ [newline]
  ++ lit "#EXTINF:-1,One" ++ [newline] ++ lit "http://example.com/1" ++ [newline]
  ++ lit "  #EXTINF:-1, Two " ++ [13; newline] ++ lit " http://example.com/2 " ++ [13].

Lemma parseFromContent_ids_deterministic_witness :
  List.map id (channels (parseFromContent twoEntries))
  = List.map id (channels (parseFromContent twoEntries))
  /\ Forall (fun c => generateChannelId (name c) (url c) = Ok (id c))
            (channels (parseFromContent twoEntries)).
Proof.
  apply (parseFromContent_ids_deterministic twoEntries twoEntries).
  reflexivity.
Defined.

(** The playlist of the specification's example. *)
Definition examplePlaylist : jsstring :=
  lit "#EXTINF:-1 tvg-id=" ++ [dquote] ++ lit "1" ++ [dquote]
  ++ lit " group-title=" ++ [dquote] ++ lit "News" ++ [dquote] ++ lit ",CNN"
  ++ [newline] ++ lit "http://example.com/cnn.m3u8" ++ [newline]
  ++ lit "#EXTINF:-1,Unknown" ++ [newline] ++ lit "http://example.com/x.m3u8".

(** C3.  The example playlist parses to exactly two channels: the first is
    named CNN, in group News, with tvgId 1; the second is named Unknown
    and has no group. *)
Theorem parseFromContent_example :
  exists first second,
    channels (parseFromContent examplePlaylist) = [first; second]
    /\ totalChannels (parseFromContent examplePlaylist) = 2%nat
    /\ name first = lit "CNN"
    /\ group first = Some (lit "News")
    /\ tvgId first = Some (lit "1")
    /\ url first = lit "http://example.com/cnn.m3u8"
    /\ name second = lit "Unknown"
    /\ group second = None
    /\ url second = lit "http://example.com/x.m3u8".
Proof.
  eexists _, _. split; [vm_compute; reflexivity|].
  vm_compute. repeat split; reflexivity.
Qed.

(** C4.  [parseFromContent] is a total function: it returns a playlist for
    every input string.  An entry (a marker line and its URL line) adds its
    channel when its parse succeeds and nothing when its parse throws, and
    in both cases everything before and after it is parsed as if the entry
    were not there. *)
Theorem parseFromContent_skips_failed_entry (pre e u post : jsstring) :
  singleLine e = true -> singleLine u = true ->
  isExtInf (trim e) = true ->
  truthy (trim u) = true -> isComment (trim u) = false ->
  channels (parseFromContent (pre ++ newline :: e ++ newline :: u ++ newline :: post))
  = channels (parseFromContent pre)
    ++ match parseExtInfLine_try (trim e) (trim u) with
       | Ok channel => [channel]
       | Throw _ => []
       end
    ++ channels (parseFromContent post).
Proof.
  intros He Hu Hext Htr Hcom. cbn [parseFromContent channels].
  assert (Hte : truthy (trim e) = true).
  { destruct (trim e); [discriminate Hext | reflexivity]. }
  rewrite splitLines_app.
  replace (e ++ newline :: u ++ newline :: post)
    with (e ++ newline :: (u ++ newline :: post)) by reflexivity.
  rewrite splitLines_app, splitLines_app.
  rewrite (splitLines_single e) by (try apply singleLine_no_newline; assumption).
  rewrite (splitLines_single u) by (try apply singleLine_no_newline; assumption).
  cbn [app]. apply parseLines_entry; assumption.
Qed.

(** An entry that parses, an entry whose name is Cyrillic, an entry that
    parses: the middle one is dropped and the other two are kept. *)
Lemma parseFromContent_skips_failed_entry_witness :
  channels (parseFromContent
              (lit "#EXTINF:-1,One" ++ [newline] ++ lit "http://example.com/1"
               ++ newline :: (lit "#EXTINF:-1," ++ [1058; 1042])
               ++ newline :: lit "http://example.com/tv.m3u8"
               ++ newline :: lit "#EXTINF:-1,Two" ++ [newline] ++ lit "http://example.com/2"))
  = channels (parseFromContent (lit "#EXTINF:-1,One" ++ [newline] ++ lit "http://example.com/1"))
    ++ match parseExtInfLine_try (trim (lit "#EXTINF:-1," ++ [1058; 1042]))
                                 (trim (lit "http://example.com/tv.m3u8")) with
       | Ok channel => [channel]
       | Throw _ => []
       end
    ++ channels (parseFromContent (lit "#EXTINF:-1,Two" ++ [newline] ++ lit "http://example.com/2")).
Proof.
  apply (parseFromContent_skips_failed_entry
           (lit "#EXTINF:-1,One" ++ [newline] ++ lit "http://example.com/1")
           (lit "#EXTINF:-1," ++ [1058; 1042])
           (lit "http://example.com/tv.m3u8")
           (lit "#EXTINF:-1,Two" ++ [newline] ++ lit "http://example.com/2"));
    vm_compute; reflexivity.
Defined.

End ParserFacts.

(* ===================================================================== *)
(** ** Grouping channels by category *)
(* ===================================================================== *)

Module GroupingFacts.
Import JS JSFacts M3UParser.

(** The channels of a list that fall under [key], in their order. *)
Definition membersOf (key : jsstring) (channels : list Channel) : list Channel :=
  List.filter (fun c => bool_decide (categoryOf c = key)) channels.

(** An object has a property only for a group that has a member. *)
Definition asGroup (members : list Channel) : option (list Channel) :=
  match members with
  | [] => None
  | _ :: _ => Some members
  end.

(** All groups of the object, one after the other. *)
Definition flatten (grouped : gmap jsstring (list Channel)) : list Channel :=
  concat (List.map snd (map_to_list grouped)).

Definition safeCategory (c : Channel) : Prop :=
  includes objectPrototypeKeys (categoryOf c) = false.

Lemma categoryOf_missing c :
  group c = None \/ group c = Some [] -> categoryOf c = lit "Uncategorized".
Proof. unfold categoryOf. intros [-> | ->]; reflexivity. Qed.

Lemma categoryOf_label c g :
  group c = Some g -> g <> [] -> categoryOf c = g.
Proof.
  unfold categoryOf. intros -> Hg. destruct g; [contradiction | reflexivity].
Qed.

Lemma membersOf_snoc key done c :
  membersOf key (done ++ [c])
  = if bool_decide (categoryOf c = key) then membersOf key done ++ [c]
    else membersOf key done.
Proof.
  unfold membersOf. rewrite List.filter_app. cbn [List.filter].
  destruct (bool_decide (categoryOf c = key)); [reflexivity | apply app_nil_r].
Qed.

Lemma asGroup_snoc members c : asGroup (members ++ [c]) = Some (members ++ [c]).
Proof. destruct members; reflexivity. Qed.

Lemma asGroup_Some members l : asGroup members = Some l -> members = l.
Proof. destruct members; [discriminate | intros [= <-]; reflexivity]. Qed.

Lemma asGroup_None members : asGroup members = None -> members = [].
Proof. destruct members; [reflexivity | discriminate]. Qed.

Lemma flatten_insert_new grouped key members :
  grouped !! key = None ->
  flatten (<[key := members]> grouped) ≡ₚ members ++ flatten grouped.
Proof.
  intros Hnone. unfold flatten.
  rewrite (map_to_list_insert grouped key members Hnone). reflexivity.
Qed.

Lemma flatten_insert_push grouped key members c :
  grouped !! key = Some members ->
  flatten (<[key := members ++ [c]]> grouped) ≡ₚ flatten grouped ++ [c].
Proof.
  intros Hsome.
  rewrite <- (insert_delete_eq grouped key (members ++ [c])).
  rewrite flatten_insert_new by apply lookup_delete_eq.
  unfold flatten at 2. rewrite <- (map_to_list_delete grouped key members Hsome).
  cbn [List.map snd concat]. fold (flatten (delete key grouped)).
  rewrite <- !app_assoc. apply Permutation_app_head, Permutation_app_comm.
Qed.

(** What the object holds after the channels [done] have been visited. *)
Definition groupedFor (done : list Channel) (grouped : gmap jsstring (list Channel)) : Prop :=
  (forall key, grouped !! key = asGroup (membersOf key done))
  /\ flatten grouped ≡ₚ done.

Lemma groupChannel_step done grouped c :
  groupedFor done grouped -> safeCategory c ->
  exists grouped', groupChannel grouped c = Ok grouped'
                   /\ groupedFor (done ++ [c]) grouped'.
Proof.
  intros [Hkeys Hperm] Hsafe. unfold groupChannel, getProperty.
  destruct (grouped !! categoryOf c) as [members|] eqn:Hlook.
  - eexists. split; [reflexivity|]. split.
    + intros key. rewrite membersOf_snoc, lookup_insert.
      destruct (decide (categoryOf c = key)) as [<- | Hne].
      * rewrite bool_decide_eq_true_2 by reflexivity.
        rewrite asGroup_snoc. rewrite Hkeys in Hlook.
        apply asGroup_Some in Hlook. rewrite Hlook. reflexivity.
      * rewrite bool_decide_eq_false_2 by exact Hne. apply Hkeys.
    + rewrite (flatten_insert_push _ _ _ _ Hlook), Hperm. reflexivity.
  - unfold safeCategory in Hsafe. rewrite Hsafe.
    eexists. split; [reflexivity|]. split.
    + intros key. rewrite membersOf_snoc, lookup_insert.
      destruct (decide (categoryOf c = key)) as [<- | Hne].
      * rewrite bool_decide_eq_true_2 by reflexivity.
        rewrite asGroup_snoc. rewrite Hkeys in Hlook.
        apply asGroup_None in Hlook. rewrite Hlook. reflexivity.
      * rewrite bool_decide_eq_false_2 by exact Hne. apply Hkeys.
    + rewrite (flatten_insert_new _ _ _ Hlook), Hperm.
      cbn [app]. apply Permutation_cons_append.
Qed.

Lemma forEach_groupChannel rest : forall done grouped,
  groupedFor done grouped -> Forall safeCategory rest ->
  exists grouped', forEach groupChannel rest grouped = Ok grouped'
                   /\ groupedFor (done ++ rest) grouped'.
Proof.
  induction rest as [|c rest IH]; intros done grouped Hinv Hsafe.
  - exists grouped. rewrite app_nil_r. split; [reflexivity | exact Hinv].
  - apply Forall_cons_1 in Hsafe as [Hc Hrest].
    destruct (groupChannel_step done grouped c Hinv Hc) as (g1 & Hstep & Hinv1).
    destruct (IH (done ++ [c]) g1 Hinv1 Hrest) as (g2 & Hrun & Hinv2).
    exists g2. cbn [forEach]. rewrite Hstep. cbn [bind].
    rewrite <- app_assoc in Hinv2. split; [exact Hrun | exact Hinv2].
Qed.

(** The claim as the specification words it: the key of a channel is
    [Uncategorized] when the group is missing and the group label in every
    other case. *)
Definition labelOf (c : Channel) : jsstring :=
  match group c with
  | None => lit "Uncategorized"
  | Some label => label
  end.

Definition groups_by_label (channels : list Channel) : Prop :=
  exists grouped,
    groupChannelsByCategory channels = Ok grouped
    /\ (forall key, grouped !! key
                    = asGroup (List.filter (fun c => bool_decide (labelOf c = key)) channels))
    /\ flatten grouped ≡ₚ channels.

(** A channel as the parser builds it from [group-title=QQ] (two double
    quotes): the group is present and is the empty string. *)
Definition emptyLabelChannel : Channel :=
  {| id := lit "WGh0dHA6Ly9hL3g"; name := lit "X"; url := lit "http://a/x";
     group := Some []; logo := None; country := None; language := None;
     tvgId := None; tvgName := None |}.

Lemma parser_yields_empty_label :
  List.map group
    (channels (parseFromContent
                 (lit "#EXTINF:-1 group-title=" ++ [dquote; dquote] ++ lit ",X"
                  ++ [newline] ++ lit "http://a/x")))
  = [Some []].
Proof. vm_compute. reflexivity. Qed.

(** C5 (counterexample).  A channel whose group is the empty string is
    filed under [Uncategorized], not under its own label. *)
Lemma groupChannelsByCategory_empty_label_counterexample :
  ~ groups_by_label [emptyLabelChannel].
Proof.
  intros (grouped & Hrun & Hkeys & _).
  vm_compute in Hrun. injection Hrun as <-.
  specialize (Hkeys []). vm_compute in Hkeys. discriminate Hkeys.
Qed.

(** A group label that names a member of [Object.prototype] makes the
    call throw. *)
Lemma groupChannelsByCategory_inherited_key_throws :
  groupChannelsByCategory
    [ {| id := lit "x"; name := lit "X"; url := lit "http://a/x";
         group := Some (lit "constructor"); logo := None; country := None;
         language := None; tvgId := None; tvgName := None |} ]
  = Throw TypeError.
Proof. vm_compute. reflexivity. Qed.

(** C5 (amended).  For every channel list in which no category is the name
    of a member of [Object.prototype], [groupChannelsByCategory] returns an
    object in which a channel with a missing or empty group is filed under
    [Uncategorized] and every other channel under its group label; each
    group is the sub-sequence of the input with that category, in the
    input's order; and all groups together are a permutation of the
    input. *)
Theorem groupChannelsByCategory_partitions (channels : list Channel) :
  Forall (fun c => includes objectPrototypeKeys (categoryOf c) = false) channels ->
  exists grouped,
    groupChannelsByCategory channels = Ok grouped
    /\ (forall c, In c channels ->
          exists members,
            grouped !! match group c with
                       | Some (x :: label) => x :: label
                       | Some [] | None => lit "Uncategorized"
                       end = Some members
            /\ In c members)
    /\ (forall key, grouped !! key = asGroup (membersOf key channels))
    /\ flatten grouped ≡ₚ channels.
Proof.
  intros Hsafe.
  assert (Hinit : groupedFor [] ∅).
  { split; [intros key; apply lookup_empty|].
    unfold flatten. rewrite map_to_list_empty. reflexivity. }
  destruct (forEach_groupChannel channels [] ∅ Hinit Hsafe)
    as (grouped & Hrun & Hkeys & Hperm).
  cbn [app] in Hkeys, Hperm.
  exists grouped. split; [exact Hrun|]. split; [|split; assumption].
  intros c Hin.
  assert (Hkey : match group c with
                 | Some (x :: label) => x :: label
                 | Some [] | None => lit "Uncategorized"
                 end = categoryOf c).
  { unfold categoryOf. destruct (group c) as [[|x label]|]; reflexivity. }
  rewrite Hkey, Hkeys.
  assert (Hmem : In c (membersOf (categoryOf c) channels)).
  { apply filter_In. split; [exact Hin | apply bool_decide_eq_true; reflexivity]. }
  destruct (membersOf (categoryOf c) channels) as [|m ms] eqn:E; [destruct Hmem|].
  exists (m :: ms). split; [reflexivity | exact Hmem].
Qed.

Definition sampleChannel (name group : option jsstring) : Channel :=
  {| id := default [] name; name := default [] name; url := lit "http://a/";
     group := group; logo := None; country := None; language := None;
     tvgId := None; tvgName := None |}.

Definition sampleChannels : list Channel :=
  [ sampleChannel (Some (lit "A")) (Some (lit "News"));
    sampleChannel (Some (lit "B")) None;
    sampleChannel (Some (lit "C")) (Some (lit "News"));
    sampleChannel (Some (lit "D")) (Some []) ].

Lemma groupChannelsByCategory_partitions_witness :
  exists grouped,
    groupChannelsByCategory sampleChannels = Ok grouped
    /\ (forall c, In c sampleChannels ->
          exists members,
            grouped !! match group c with
                       | Some (x :: label) => x :: label
                       | Some [] | None => lit "Uncategorized"
                       end = Some members
            /\ In c members)
    /\ (forall key, grouped !! key = asGroup (membersOf key sampleChannels))
    /\ flatten grouped ≡ₚ sampleChannels.
Proof.
  apply (groupChannelsByCategory_partitions sampleChannels).
  repeat (apply List.Forall_cons; [vm_compute; reflexivity|]). apply List.Forall_nil.
Defined.

End GroupingFacts.

(* ===================================================================== *)
(** ** The favorites hook (useFavorites) *)
(* ===================================================================== *)

Module UseFavorites.
Import JS JSFacts.

(** [isFavorite] reads [favorites], the state value of the render that
    created the callback. *)
Definition isFavorite (favorites : list jsstring) (channelId : jsstring) : bool :=
  includes favorites channelId.

(** The updater [addFavorite] hands to [setFavorites]. *)
Definition addFavorite (channelId : jsstring) (prev : list jsstring) : list jsstring :=
  if negb (includes prev channelId) then prev ++ [channelId] else prev.

(** The updater [removeFavorite] hands to [setFavorites]. *)
Definition removeFavorite (channelId : jsstring) (prev : list jsstring) : list jsstring :=
  List.filter (fun id => negb (bool_decide (id = channelId))) prev.

(** [toggleFavorite] chooses between the two updaters by [isFavorite], that
    is by the [favorites] of its render; the updater then runs on [prev]. *)
Definition toggleFavorite (favorites : list jsstring) (channelId : jsstring)
    (prev : list jsstring) : list jsstring :=
  if isFavorite favorites channelId
  then removeFavorite channelId prev
  else addFavorite channelId prev.

Definition clearFavorites (prev : list jsstring) : list jsstring := [].

(** The hook between two renders: [favorites] is the state value the
    current callbacks were created with, [pending] is the state once the
    updaters enqueued since then have run. *)
Record Hook := {
  favorites : list jsstring;
  pending : list jsstring
}.

(** The first render, with the list read from local storage. *)
Definition mount (stored : list jsstring) : Hook :=
  {| favorites := stored; pending := stored |}.

(** React applies the queued updaters and renders again; the callbacks are
    re-created because [favorites] is among their dependencies. *)
Definition render (h : Hook) : Hook :=
  {| favorites := pending h; pending := pending h |}.

(** A call of the [toggleFavorite] of the current render. *)
Definition callToggleFavorite (channelId : jsstring) (h : Hook) : Hook :=
  {| favorites := favorites h;
     pending := toggleFavorite (favorites h) channelId (pending h) |}.

(** One click on the heart button: the handler calls [toggleFavorite] once
    and React renders before the next event is handled. *)
Definition click (channelId : jsstring) (h : Hook) : Hook :=
  render (callToggleFavorite channelId h).

Lemma removeFavorite_absent x prev : includes (removeFavorite x prev) x = false.
Proof.
  destruct (includes (removeFavorite x prev) x) eqn:E; [|reflexivity].
  apply includes_In in E. unfold removeFavorite in E.
  apply filter_In in E as [_ E]. rewrite bool_decide_eq_true_2 in E by reflexivity.
  discriminate.
Qed.

Lemma addFavorite_present x prev : includes (addFavorite x prev) x = true.
Proof.
  unfold addFavorite. destruct (includes prev x) eqn:E; cbn [negb]; [exact E|].
  apply includes_In, in_or_app. right. left. reflexivity.
Qed.

Lemma addFavorite_NoDup x prev : List.NoDup prev -> List.NoDup (addFavorite x prev).
Proof.
  intros Hnd. unfold addFavorite. destruct (includes prev x) eqn:E; cbn [negb]; [exact Hnd|].
  apply (Permutation_NoDup (Permutation_cons_append prev x)).
  constructor; [|exact Hnd].
  intros Hin. apply includes_In in Hin. congruence.
Qed.

Lemma removeFavorite_NoDup x prev : List.NoDup prev -> List.NoDup (removeFavorite x prev).
Proof. apply List.NoDup_filter. Qed.

(** The claim as the specification words it, on two calls of the same
    [toggleFavorite]: both calls belong to one render and the state is
    looked at after the render that follows them. *)
Definition toggle_twice_restores (stored : list jsstring) (x : jsstring) : Prop :=
  let h := callToggleFavorite x (callToggleFavorite x (mount stored)) in
  isFavorite (favorites (render h)) x = isFavorite stored x.

(** C6 (counterexample).  With no favorite stored, two calls of the
    [toggleFavorite] of one render both find the channel absent in that
    render's [favorites] and both enqueue [addFavorite]: the channel ends
    up a favorite.  And a list read from local storage with a duplicate
    keeps it after [addFavorite]. *)
Lemma toggleFavorite_same_render_counterexample :
  ~ toggle_twice_restores [] (lit "a")
  /\ ~ List.NoDup (addFavorite (lit "b") [lit "a"; lit "a"]).
Proof.
  split; [vm_compute; discriminate|].
  vm_compute. intros H. inversion H as [|? ? Hnotin _]. apply Hnotin. left. reflexivity.
Qed.

(** C6 (amended).  For every favorites list and every channel [x], two
    calls of [toggleFavorite], each made through the callback of the latest
    render as a click on the heart button does, bring the membership of [x]
    back to what it was; such a call removes [x] when it is a favorite and
    appends it when it is not; after [addFavorite], [x] is a favorite; and
    a list without duplicates has none after [addFavorite] nor after such
    calls. *)
Theorem toggleFavorite_twice_restores (stored : list jsstring) (x : jsstring) :
  let h0 := mount stored in
  let h1 := click x h0 in
  let h2 := click x h1 in
  isFavorite (favorites h2) x = isFavorite (favorites h0) x
  /\ favorites h1
     = (if isFavorite stored x
        then List.filter (fun id => negb (bool_decide (id = x))) stored
        else stored ++ [x])
  /\ isFavorite (favorites h1) x = negb (isFavorite stored x)
  /\ isFavorite (addFavorite x stored) x = true
  /\ (List.NoDup stored ->
      List.NoDup (addFavorite x stored)
      /\ List.NoDup (favorites h1) /\ List.NoDup (favorites h2)).
Proof.
  cbn zeta.
  unfold click, callToggleFavorite, render, mount, toggleFavorite, isFavorite.
  cbn [favorites pending].
  destruct (includes stored x) eqn:E.
  - rewrite removeFavorite_absent, addFavorite_present.
    repeat split; auto using removeFavorite_absent,
      addFavorite_NoDup, removeFavorite_NoDup, addFavorite_present.
  - rewrite addFavorite_present, removeFavorite_absent.
    assert (Hadd : addFavorite x stored = stored ++ [x]).
    { unfold addFavorite. rewrite E. reflexivity. }
    repeat split; auto using removeFavorite_absent,
      addFavorite_NoDup, removeFavorite_NoDup, addFavorite_present.
Qed.

Lemma toggleFavorite_twice_restores_witness :
  List.NoDup [lit "a"; lit "b"]
  /\ List.NoDup (addFavorite (lit "c") [lit "a"; lit "b"])
  /\ List.NoDup (favorites (click (lit "c") (mount [lit "a"; lit "b"])))
  /\ List.NoDup (favorites (click (lit "c") (click (lit "c") (mount [lit "a"; lit "b"])))).
Proof.
  assert (Hnd : List.NoDup [lit "a"; lit "b"]).
  { repeat constructor; cbn; intuition discriminate. }
  split; [exact Hnd|].
  exact (proj2 (proj2 (proj2 (proj2
           (toggleFavorite_twice_restores [lit "a"; lit "b"] (lit "c"))))) Hnd).
Defined.

End UseFavorites.

(* ===================================================================== *)
(** ** src/app/page.tsx: channel navigation *)
(* ===================================================================== *)

Module Page.
Import JS M3UParser.
Local Open Scope Z_scope.

Inductive direction := next | prev.

(** [array.findIndex(p)]: the first index whose element satisfies [p], or
    -1. *)
Fixpoint findIndexFrom {A} (p : A -> bool) (i : Z) (l : list A) : Z :=
  match l with
  | [] => -1
  | x :: l' => if p x then i else findIndexFrom p (i + 1) l'
  end.

Definition findIndex {A} (p : A -> bool) (l : list A) : Z := findIndexFrom p 0 l.

(** [a % b] on integers: [NaN] for a zero divisor, else the remainder with
    the sign of the dividend. *)
Definition remainder (a b : Z) : option Z :=
  if b =? 0 then None else Some (Z.rem a b).

(** [array[i]]: [undefined] for [NaN], a negative index or an index past
    the end. *)
Definition at_index {A} (l : list A) (i : option Z) : option A :=
  match i with
  | Some n => if n <? 0 then None else nth_error l (Z.to_nat n)
  | None => None
  end.

(** The two pieces of component state [navigateChannel] depends on. *)
Record PageState := {
  playlist : option ParsedPlaylist;
  currentChannel : option Channel
}.

Definition navigateChannel (st : PageState) (d : direction) : PageState :=
  match playlist st, currentChannel st with
  | Some pl, Some current =>
      let currentIndex :=
        findIndex (fun ch => bool_decide (id ch = id current)) (channels pl) in
      let len := Z.of_nat (length (channels pl)) in
      let nextIndex :=
        match d with
        | next => remainder (currentIndex + 1) len
        | prev => remainder (currentIndex - 1 + len) len
        end in
      {| playlist := playlist st;
         currentChannel := at_index (channels pl) nextIndex |}
  | _, _ => st
  end.

Lemma findIndexFrom_nth (l : list Channel) : forall (n : nat) (base : Z) current,
  List.NoDup (List.map id l) ->
  nth_error l n = Some current ->
  findIndexFrom (fun ch => bool_decide (id ch = id current)) base l = base + Z.of_nat n.
Proof.
  induction l as [|c l IH]; intros n base current Hnd Hnth.
  - destruct n; discriminate.
  - cbn [List.map] in Hnd. apply NoDup_cons_iff in Hnd as [Hnotin Hnd].
    destruct n as [|n]; cbn [nth_error] in Hnth; cbn [findIndexFrom].
    + injection Hnth as ->. rewrite bool_decide_eq_true_2 by reflexivity. lia.
    + rewrite bool_decide_eq_false_2.
      * rewrite (IH n (base + 1) current Hnd Hnth). lia.
      * intros Heq. apply Hnotin. rewrite Heq.
        apply in_map, (nth_error_In _ _ Hnth).
Qed.

(** C7.  In a playlist of N >= 1 channels with distinct identifiers, whose
    channel at index 0 is [first] and whose channel at index N-1 is [last]:
    [prev] from [first] selects [last], and [next] from [last] selects
    [first]. *)
Theorem navigateChannel_wraps (pl : ParsedPlaylist) (first last : Channel) :
  (1 <= length (channels pl))%nat ->
  List.NoDup (List.map id (channels pl)) ->
  nth_error (channels pl) 0 = Some first ->
  nth_error (channels pl) (length (channels pl) - 1) = Some last ->
  currentChannel
    (navigateChannel {| playlist := Some pl; currentChannel := Some first |} prev)
  = Some last
  /\ currentChannel
       (navigateChannel {| playlist := Some pl; currentChannel := Some last |} next)
     = Some first.
Proof.
  intros Hlen Hnd Hfirst Hlast. unfold navigateChannel, findIndex.
  cbn [playlist currentChannel].
  rewrite (findIndexFrom_nth _ _ 0 _ Hnd Hfirst), (findIndexFrom_nth _ _ 0 _ Hnd Hlast).
  set (n := length (channels pl)) in *.
  unfold remainder. destruct (Z.eqb_spec (Z.of_nat n) 0) as [E|_]; [lia|].
  split.
  - replace (0 + Z.of_nat 0%nat - 1 + Z.of_nat n) with (Z.of_nat (n - 1)) by lia.
    rewrite Z.rem_small by lia. cbn [at_index].
    destruct (Z.ltb_spec (Z.of_nat (n - 1)) 0); [lia|].
    rewrite Nat2Z.id. exact Hlast.
  - replace (0 + Z.of_nat (n - 1) + 1) with (Z.of_nat n) by lia.
    rewrite Z.rem_same by lia. exact Hfirst.
Qed.

Definition station (letter : jsstring) : Channel :=
  {| id := letter; name := lit "Station " ++ letter;
     url := lit "http://example.com/" ++ letter;
     group := None; logo := None; country := None; language := None;
     tvgId := None; tvgName := None |}.

Definition channelA : Channel := station (lit "A").
Definition channelB : Channel := station (lit "B").
Definition channelC : Channel := station (lit "C").

Definition threeChannels : ParsedPlaylist :=
  {| channels := [channelA; channelB; channelC]; totalChannels := 3 |}.

Lemma navigateChannel_wraps_witness :
  currentChannel
    (navigateChannel {| playlist := Some threeChannels; currentChannel := Some channelA |} prev)
  = Some channelC
  /\ currentChannel
       (navigateChannel {| playlist := Some threeChannels; currentChannel := Some channelC |} next)
     = Some channelA.
Proof.
  apply (navigateChannel_wraps threeChannels channelA channelC).
  - cbn. lia.
  - repeat constructor; cbn; intuition discriminate.
  - reflexivity.
  - reflexivity.
Defined.

End Page.

(* ===================================================================== *)
(** ** src/lib/cors-proxy.ts *)
(* ===================================================================== *)

Module CorsProxy.
Import JS JSFacts.

(** *** [encodeURIComponent]

    Code units of the unreserved set stand for themselves; every other code
    point is written as the percent-escapes of its UTF-8 octets; a
    surrogate without its partner throws a [URIError]. *)

Definition isUnreserved (c : N) : bool :=
  isAlphaNum c
  || (c =? 45) || (c =? 95) || (c =? 46) || (c =? 33) || (c =? 126)
  || (c =? 42) || (c =? 39) || (c =? 40) || (c =? 41).

Definition isLeadSurrogate (c : N) : bool := (55296 <=? c) && (c <=? 56319).
Definition isTrailSurrogate (c : N) : bool := (56320 <=? c) && (c <=? 57343).

Definition hexDigit (n : N) : N := if n <? 10 then 48 + n else 65 + (n - 10).

Definition percentEscape (octet : N) : jsstring :=
  [37; hexDigit (N.shiftr octet 4); hexDigit (N.land octet 15)].

Definition utf8 (cp : N) : list N :=
  if cp <? 128 then [cp]
  else if cp <? 2048 then
    [N.lor 192 (N.shiftr cp 6); N.lor 128 (N.land cp 63)]
  else if cp <? 65536 then
    [N.lor 224 (N.shiftr cp 12);
     N.lor 128 (N.land (N.shiftr cp 6) 63);
     N.lor 128 (N.land cp 63)]
  else
    [N.lor 240 (N.shiftr cp 18);
     N.lor 128 (N.land (N.shiftr cp 12) 63);
     N.lor 128 (N.land (N.shiftr cp 6) 63);
     N.lor 128 (N.land cp 63)].

Definition escapeCodePoint (cp : N) : jsstring :=
  concat (List.map percentEscape (utf8 cp)).

Fixpoint encodeURIComponent (s : jsstring) : completion jsstring :=
  match s with
  | [] => Ok []
  | c :: s' =>
      if isUnreserved c then
        let* rest := encodeURIComponent s' in Ok (c :: rest)
      else if isTrailSurrogate c then Throw URIError
      else if isLeadSurrogate c then
        match s' with
        | d :: s'' =>
            if isTrailSurrogate d then
              let cp := (c - 55296) * 1024 + (d - 56320) + 65536 in
              let* rest := encodeURIComponent s'' in
              Ok (escapeCodePoint cp ++ rest)
            else Throw URIError
        | [] => Throw URIError
        end
      else
        let* rest := encodeURIComponent s' in
        Ok (escapeCodePoint c ++ rest)
  end.

Example encodeURIComponent_latin_and_cjk :
  encodeURIComponent (lit "http://a b/" ++ [233] ++ lit "?x=1&y=" ++ [20013])
  = Ok (lit "http%3A%2F%2Fa%20b%2F%C3%A9%3Fx%3D1%26y%3D%E4%B8%AD").
Proof. vm_compute. reflexivity. Qed.

Example encodeURIComponent_surrogate_pair :
  encodeURIComponent (lit "http://x/" ++ [55357; 56832])
  = Ok (lit "http%3A%2F%2Fx%2F%F0%9F%98%80").
Proof. vm_compute. reflexivity. Qed.

Example encodeURIComponent_lone_surrogate :
  encodeURIComponent (lit "http://x/" ++ [55357]) = Throw URIError.
Proof. vm_compute. reflexivity. Qed.

(** *** The module *)

Definition CORS_PROXIES : list jsstring :=
  [ lit "https://corsproxy.io/?";
    lit "https://api.allorigins.win/raw?url=" ].

(** [CORS_PROXIES[currentProxyIndex]]; an index outside the array reads
    [undefined], which the template literal prints as such. *)
Definition getCurrentProxy (currentProxyIndex : nat) : jsstring :=
  nth currentProxyIndex CORS_PROXIES (lit "undefined").

(** [rotateProxy], as the new value of the module variable. *)
Definition rotateProxy (currentProxyIndex : nat) : nat :=
  ((currentProxyIndex + 1) mod length CORS_PROXIES)%nat.

(** The values the module variable takes: 0 at load, then what
    [rotateProxy] stores. *)
Inductive reachableIndex : nat -> Prop :=
| reach_initial : reachableIndex 0
| reach_rotate i : reachableIndex i -> reachableIndex (rotateProxy i).

Definition getProxiedUrl (currentProxyIndex : nat) (url : jsstring) : completion jsstring :=
  if startsWith url (lit "https://") then Ok url
  else
    let proxy := getCurrentProxy currentProxyIndex in
    let* encoded := encodeURIComponent url in
    Ok (proxy ++ encoded).

Lemma reachableIndex_bound i : reachableIndex i -> (i < length CORS_PROXIES)%nat.
Proof.
  intros H. destruct H as [|j _].
  - cbn. lia.
  - unfold rotateProxy. apply Nat.mod_upper_bound. cbn. lia.
Qed.

Lemma getCurrentProxy_https i :
  reachableIndex i -> startsWith (getCurrentProxy i) (lit "https://") = true.
Proof.
  intros H. apply reachableIndex_bound in H. cbn in H.
  destruct i as [|[|i]]; [reflexivity | reflexivity | lia].
Qed.

Lemma startsWith_app_l s t p :
  startsWith s p = true -> startsWith (s ++ t) p = true.
Proof.
  revert s. induction p as [|c p IH]; intros s; cbn [startsWith]; [reflexivity|].
  destruct s as [|d s]; [discriminate|]. cbn [app].
  rewrite !andb_true_iff. intros [H1 H2]. split; [exact H1 | apply IH, H2].
Qed.

(** C9.  A URL that starts with [https://] is returned unchanged, whatever
    the current proxy.  Every other URL is rewritten: the result is the
    current proxy followed by [encodeURIComponent] of the URL (and the call
    throws where [encodeURIComponent] does); such a result starts with
    [https://], so it differs from the URL.  A result that differs from
    the URL comes from a URL that does not start with [https://]. *)
Theorem getProxiedUrl_https_unchanged (currentProxyIndex : nat) (url : jsstring) :
  reachableIndex currentProxyIndex ->
  (startsWith url (lit "https://") = true ->
   getProxiedUrl currentProxyIndex url = Ok url)
  /\ (startsWith url (lit "https://") = false ->
      getProxiedUrl currentProxyIndex url
      = (let* encoded := encodeURIComponent url in
         Ok (getCurrentProxy currentProxyIndex ++ encoded))
      /\ forall result, getProxiedUrl currentProxyIndex url = Ok result ->
                        startsWith result (lit "https://") = true /\ result <> url)
  /\ (forall result, getProxiedUrl currentProxyIndex url = Ok result ->
                     result <> url -> startsWith url (lit "https://") = false).
Proof.
  intros Hreach. unfold getProxiedUrl. split; [|split].
  - intros ->. reflexivity.
  - intros Hhttp. rewrite Hhttp. split; [reflexivity|].
    intros result Hres. unfold bind in Hres.
    destruct (encodeURIComponent url) as [encoded|]; [|discriminate].
    injection Hres as <-.
    assert (Hs : startsWith (getCurrentProxy currentProxyIndex ++ encoded)
                   (lit "https://") = true).
    { apply startsWith_app_l, getCurrentProxy_https, Hreach. }
    split; [exact Hs|]. intros Heq. rewrite Heq in Hs. congruence.
  - intros result Hres Hne.
    destruct (startsWith url (lit "https://")); [|reflexivity].
    injection Hres as <-. contradiction.
Qed.

Lemma getProxiedUrl_https_unchanged_witness :
  getProxiedUrl 1 (lit "https://example.com/live.m3u8")
  = Ok (lit "https://example.com/live.m3u8")
  /\ getProxiedUrl 1 (lit "http://example.com/live.m3u8")
     = Ok (lit "https://api.allorigins.win/raw?url=http%3A%2F%2Fexample.com%2Flive.m3u8").
Proof.
  assert (Hreach : reachableIndex 1) by exact (reach_rotate 0 reach_initial).
  split.
  - apply (proj1 (getProxiedUrl_https_unchanged 1 (lit "https://example.com/live.m3u8") Hreach)).
    reflexivity.
  - rewrite (proj1 (proj1 (proj2 (getProxiedUrl_https_unchanged 1
                (lit "http://example.com/live.m3u8") Hreach)) eq_refl)).
    vm_compute. reflexivity.
Defined.

End CorsProxy.

(* ===================================================================== *)
(** ** src/app/api/playlist/route.ts *)
(* ===================================================================== *)

Module PlaylistRoute.
Import JS.
Local Open Scope Z_scope.

Record Response := {
  status : Z;
  body : jsstring;
  headers : list (jsstring * jsstring)
}.

(** The statuses a response with a body cannot carry. *)
Definition nullBodyStatus (s : Z) : bool :=
  (s =? 101) || (s =? 103) || (s =? 204) || (s =? 205) || (s =? 304).

(** The constructor of [Response] with a body, as the Fetch standard
    initialises a response: a status outside 200..599 throws a
    [RangeError], a null-body status together with a body throws a
    [TypeError]. *)
Definition newResponse (content : jsstring) (init_status : Z)
    (init_headers : list (jsstring * jsstring)) : completion Response :=
  if (init_status <? 200) || (599 <? init_status) then Throw RangeError
  else if nullBodyStatus init_status then Throw TypeError
  else Ok {| status := init_status; body := content; headers := init_headers |}.

(** [JSON.stringify({ error: message })] for a message of plain letters. *)
Definition errorJson (message : jsstring) : jsstring :=
  lit "{" ++ [dquote] ++ lit "error" ++ [dquote] ++ lit ":"
  ++ [dquote] ++ message ++ [dquote] ++ lit "}".

(** [NextResponse.json({ error: message }, { status })] *)
Definition NextResponse_json (message : jsstring) (init_status : Z) : completion Response :=
  newResponse (errorJson message) init_status
    [(lit "content-type", lit "application/json")].

(** What [fetch(url, ...)] and then [response.text()] do: the promise of
    [fetch] rejects, or it resolves to a response with a status whose
    body either reads as text or fails while being read. *)
Inductive Upstream :=
| Rejects (e : JsError)
| Responds (upstream_status : Z) (text : completion jsstring).

(** [response.ok] *)
Definition ok (upstream_status : Z) : bool :=
  (200 <=? upstream_status) && (upstream_status <=? 299).

Definition playlistHeaders : list (jsstring * jsstring) :=
  [ (lit "Content-Type", lit "text/plain; charset=utf-8");
    (lit "Access-Control-Allow-Origin", lit "*");
    (lit "Cache-Control", lit "public, max-age=300") ].

(** The [try] block of [GET].  [url] is [searchParams.get('url')]: [None]
    where the parameter is absent.  The second component lists the URLs
    [fetch] was called with. *)
Definition GET_try (fetch : jsstring -> Upstream) (url : option jsstring)
  : completion Response * list jsstring :=
  match url with
  | None => (NextResponse_json (lit "Missing url parameter") 400, [])
  | Some u =>
      if negb (truthy u) then
        (NextResponse_json (lit "Missing url parameter") 400, [])
      else
        match fetch u with
        | Rejects e => (Throw e, [u])
        | Responds upstream_status text =>
            if negb (ok upstream_status) then
              (NextResponse_json (lit "Failed to fetch playlist") upstream_status, [u])
            else
              (let* content := text in newResponse content 200 playlistHeaders, [u])
        end
  end.

(** [GET]: the [catch] block answers any exception of the [try] block with
    status 500. *)
Definition GET (fetch : jsstring -> Upstream) (url : option jsstring)
  : completion Response * list jsstring :=
  let (result, fetched) := GET_try fetch url in
  (match result with
   | Ok response => Ok response
   | Throw _ => NextResponse_json (lit "Internal server error") 500
   end, fetched).

(** The status of the response [GET] returns. *)
Definition statusOf (r : completion Response * list jsstring) : option Z :=
  match fst r with
  | Ok response => Some (status response)
  | Throw _ => None
  end.

(** [GET] always returns a response. *)
Lemma GET_returns fetch url : exists response, fst (GET fetch url) = Ok response.
Proof.
  unfold GET. destruct (GET_try fetch url) as [[response|e] fetched]; cbn [fst].
  - exists response. reflexivity.
  - eexists. reflexivity.
Qed.

(** What holds of the four cases: a missing parameter gives 400; a
    non-success upstream status that a response with a body can carry is
    passed on; a rejected fetch gives 500; a success whose body reads as
    text gives 200 with that text and the three headers. *)
Lemma GET_cases fetch u :
  truthy u = true ->
  statusOf (GET fetch None) = Some 400
  /\ (forall e, fetch u = Rejects e -> statusOf (GET fetch (Some u)) = Some 500)
  /\ (forall s text, fetch u = Responds s text -> ok s = false ->
        300 <= s <= 599 -> s <> 304 ->
        statusOf (GET fetch (Some u)) = Some s)
  /\ (forall s content, fetch u = Responds s (Ok content) -> ok s = true ->
        fst (GET fetch (Some u))
        = Ok {| status := 200; body := content; headers := playlistHeaders |}).
Proof.
  intros Hu. split; [reflexivity|]. unfold GET, GET_try. rewrite Hu. cbn [negb].
  split; [|split].
  - intros e ->. reflexivity.
  - intros s text -> Hok Hrange Hne. rewrite Hok. cbn [negb].
    unfold statusOf, NextResponse_json, newResponse, nullBodyStatus. cbn [fst].
    destruct (Z.ltb_spec s 200); [lia|]. destruct (Z.ltb_spec 599 s); [lia|].
    destruct (Z.eqb_spec s 101); [lia|]. destruct (Z.eqb_spec s 103); [lia|].
    destruct (Z.eqb_spec s 204); [lia|]. destruct (Z.eqb_spec s 205); [lia|].
    destruct (Z.eqb_spec s 304); [lia|]. reflexivity.
  - intros s content -> Hok. rewrite Hok. reflexivity.
Qed.

(** An upstream that answers 304 Not Modified to every request. *)
Definition notModified (url : jsstring) : Upstream := Responds 304 (Ok []).

(** C8 (evaluation at the failing input).  When the upstream answers 304,
    [NextResponse.json] is asked for a body with status 304 and throws; the
    [catch] block answers 500, not 304. *)
Theorem GET_upstream_304_gives_500 :
  ok 304 = false
  /\ NextResponse_json (lit "Failed to fetch playlist") 304 = Throw TypeError
  /\ statusOf (GET notModified (Some (lit "http://example.com/list.m3u"))) = Some 500.
Proof. vm_compute. repeat split; reflexivity. Qed.

(** C10.  A request whose [url] parameter is present and empty is answered
    like a request without the parameter: status 400, the same response,
    and [fetch] is not called. *)
Theorem GET_empty_url_rejected (fetch : jsstring -> Upstream) :
  statusOf (GET fetch (Some [])) = Some 400
  /\ snd (GET fetch (Some [])) = []
  /\ GET fetch (Some []) = GET fetch None.
Proof. repeat split; reflexivity. Qed.

End PlaylistRoute.

(* ===================================================================== *)
(** ** More on the playlist parser *)
(* ===================================================================== *)

Module ParserExtras.
Import JS JSFacts M3UParser ParserFacts.

(** The display name [parseExtInfLine] computes from the marker line. *)
Definition channelName (extinfLine : jsstring) : jsstring :=
  match matchFirst nameRegex extinfLine with
  | Some caps => trim (default [] (capture caps 1))
  | None => lit "Unknown Channel"
  end.

Lemma parseExtInfLine_try_name e u c :
  parseExtInfLine_try e u = Ok c ->
  name c = channelName e /\ url c = trim u
  /\ generateChannelId (channelName e) u = Ok (id c).
Proof.
  unfold parseExtInfLine_try. fold (channelName e). unfold bind.
  destruct (generateChannelId (channelName e) u) as [i|err]; [|discriminate].
  intros [= <-]. repeat split; reflexivity.
Qed.

(** Every channel of the result comes from a marker line and a non-empty,
    non-comment line of the input. *)
Lemma parseLines_origin lines c :
  In c (parseLines lines) ->
  exists e u, In e lines /\ In u lines /\ isExtInf e = true
              /\ truthy u = true /\ isComment u = false
              /\ parseExtInfLine e u = Some c.
Proof.
  induction lines as [| x | x y l IHl IHyl] using list_pair_ind.
  - intros [].
  - cbn [parseLines]. destruct (isExtInf x); intros [].
  - cbn [parseLines].
    assert (Hyl : In c (parseLines (y :: l)) ->
                  exists e u, In e (x :: y :: l) /\ In u (x :: y :: l)
                              /\ isExtInf e = true /\ truthy u = true
                              /\ isComment u = false /\ parseExtInfLine e u = Some c).
    { intros H. destruct (IHyl H) as (e & u & He & Hu & Hrest).
      exists e, u. split; [right; exact He|]. split; [right; exact Hu | exact Hrest]. }
    destruct (isExtInf x) eqn:Hx; [|exact Hyl].
    destruct (truthy y) eqn:Hty; cbn [andb]; [|exact Hyl].
    destruct (isComment y) eqn:Hcy; cbn [negb]; [exact Hyl|].
    assert (Hl : In c (parseLines l) ->
                 exists e u, In e (x :: y :: l) /\ In u (x :: y :: l)
                             /\ isExtInf e = true /\ truthy u = true
                             /\ isComment u = false /\ parseExtInfLine e u = Some c).
    { intros H. destruct (IHl H) as (e & u & He & Hu & Hrest).
      exists e, u. split; [right; right; exact He|].
      split; [right; right; exact Hu | exact Hrest]. }
    destruct (parseExtInfLine x y) as [c0|] eqn:Hp; [|exact Hl].
    intros [<- | H]; [|exact (Hl H)].
    exists x, y. split; [left; reflexivity|]. split; [right; left; reflexivity|].
    auto.
Qed.

Lemma channelName_trimmed e : trim (channelName e) = channelName e.
Proof.
  unfold channelName. destruct (matchFirst nameRegex e); [apply trim_idempotent|].
  vm_compute. reflexivity.
Qed.

Lemma generateChannelId_shape n u i :
  generateChannelId n u = Ok i ->
  (length i <= 16)%nat /\ forallb isAlphaNum i = true.
Proof.
  unfold generateChannelId, bind, substring0.
  destruct (btoa (n ++ u)) as [encoded|]; [|discriminate]. intros [= <-]. split.
  - apply firstn_le_length.
  - apply forallb_forall. intros c Hc.
    assert (Hin : In c (List.filter isAlphaNum encoded)).
    { rewrite <- (firstn_skipn 16 (List.filter isAlphaNum encoded)).
      apply in_or_app. left. exact Hc. }
    apply filter_In in Hin as [_ Hc']. exact Hc'.
Qed.

(** X1.  Whatever the input, every channel [parseFromContent] returns has
    an identifier of at most 16 characters, all of them ASCII letters or
    digits; a name without surrounding white space; and a URL that is not
    empty, has no surrounding white space and does not start with [#]. *)
Theorem parseFromContent_channels_well_formed (content : jsstring) :
  Forall (fun c =>
            (length (id c) <= 16)%nat
            /\ forallb isAlphaNum (id c) = true
            /\ trim (name c) = name c
            /\ trim (url c) = url c
            /\ truthy (url c) = true
            /\ isComment (url c) = false)
         (channels (parseFromContent content)).
Proof.
  apply List.Forall_forall. intros c Hin. cbn [parseFromContent channels] in Hin.
  apply parseLines_origin in Hin as (e & u & _ & Hu & _ & Htru & Hcom & Hp).
  pose proof (splitLines_trimmed content) as Hall.
  rewrite List.Forall_forall in Hall. destruct (Hall u Hu) as [_ Htrim].
  apply parseExtInfLine_Some, parseExtInfLine_try_name in Hp as (Hn & Hurl & Hid).
  apply generateChannelId_shape in Hid as [Hlen Halnum].
  rewrite Hn, Hurl, channelName_trimmed, !Htrim. repeat split; assumption || reflexivity.
Qed.

(** X2.  An entry is dropped exactly when its display name or its URL line
    has a code unit above 255; what the attributes hold does not matter. *)
Theorem parseExtInfLine_null_iff (extinfLine urlLine : jsstring) :
  parseExtInfLine extinfLine urlLine = None
  <-> isLatin1 (channelName extinfLine) = false \/ isLatin1 urlLine = false.
Proof.
  unfold parseExtInfLine, parseExtInfLine_try. fold (channelName extinfLine).
  unfold generateChannelId, btoa. rewrite isLatin1_app.
  destruct (isLatin1 (channelName extinfLine)), (isLatin1 urlLine);
    cbn [andb bind try_catch]; split; try discriminate; auto;
    intros [H | H]; discriminate.
Qed.

(** An entry with a Cyrillic group and a Latin name is kept. *)
Example parseExtInfLine_cyrillic_group :
  option_map group
    (parseExtInfLine
       (lit "#EXTINF:-1 group-title=" ++ [dquote; 1058; 1042; dquote] ++ lit ",News")
       (lit "http://example.com/n"))
  = Some (Some [1058; 1042]).
Proof. vm_compute. reflexivity. Qed.

(** *** Identifier collisions *)




(** *** The display name *)

(** A repetition of one character class whose continuation accepts the
    end of the input only: all of the input has to be in the class. *)
Lemma repeat_class_to_end {R} (p : N -> bool) (k : @continuation R) :
  (forall c s caps, k (c :: s) caps = None) ->
  forall s fuel caps,
    (length s < fuel)%nat ->
    repeatMatcher
      (fun s0 caps0 k0 =>
         match s0 with
         | [] => None
         | c0 :: s' => if p c0 then k0 s' caps0 else None
         end) fuel s caps k
    = if forallb p s then k [] caps else None.
Proof.
  intros Hk. induction s as [|c s IH]; intros fuel caps Hlen;
    (destruct fuel as [|fuel]; [cbn in Hlen; lia|]); cbn [repeatMatcher forallb].
  - reflexivity.
  - destruct (p c); cbn [andb]; [|apply Hk].
    destruct (Nat.ltb_spec (length s) (length (c :: s))) as [_|Hge]; [|cbn in Hge; lia].
    rewrite IH by (cbn in Hlen; lia).
    destruct (forallb p s); [|apply Hk].
    destruct (k [] caps); [reflexivity | apply Hk].
Qed.

Definition noComma (s : jsstring) : bool := forallb (fun x => negb (x =? comma)) s.

Lemma noComma_In s : noComma s = true <-> ~ In comma s.
Proof.
  unfold noComma. rewrite forallb_forall. split.
  - intros H Hin. specialize (H _ Hin). rewrite N.eqb_refl in H. discriminate.
  - intros H x Hx. destruct (N.eqb_spec x comma) as [->|_]; [contradiction | reflexivity].
Qed.

(** The name pattern matches at a comma that no comma follows, and
    captures the rest of the line. *)
Lemma matchAt_nameRegex c s :
  matchAt nameRegex (c :: s)
  = if (comma =? c) && noComma s then Some ([], [(1%nat, s)]) else None.
Proof.
  unfold matchAt, nameRegex, Chr, NotChr. cbn [compile].
  destruct (comma =? c); cbn [andb]; [|reflexivity].
  rewrite (repeat_class_to_end (fun x => negb (x =? comma))).
  - fold (noComma s). destruct (noComma s); [|reflexivity].
    cbn [length]. rewrite Nat.sub_0_r, firstn_all. reflexivity.
  - reflexivity.
  - lia.
Qed.

Lemma matchFirst_nameRegex_Some e caps :
  matchFirst nameRegex e = Some caps ->
  exists before after,
    e = before ++ comma :: after /\ ~ In comma after /\ caps = [(1%nat, after)].
Proof.
  induction e as [|c e IH]; [vm_compute; discriminate|].
  cbn [matchFirst]. rewrite matchAt_nameRegex.
  destruct (N.eqb_spec comma c) as [<-|Hc]; cbn [andb].
  - destruct (noComma e) eqn:Hno.
    + intros [= <-]. exists [], e. split; [reflexivity|].
      split; [apply noComma_In, Hno | reflexivity].
    + intros Hm. destruct (IH Hm) as (before & after & -> & Hafter & ->).
      exists (comma :: before), after. auto.
  - intros Hm. destruct (IH Hm) as (before & after & -> & Hafter & ->).
    exists (c :: before), after. auto.
Qed.

Lemma matchFirst_nameRegex_None e :
  matchFirst nameRegex e = None -> ~ In comma e.
Proof.
  induction e as [|c e IH]; [intros _ []|].
  cbn [matchFirst]. rewrite matchAt_nameRegex.
  destruct (N.eqb_spec comma c) as [<-|Hc]; cbn [andb].
  - destruct (noComma e) eqn:Hno; [discriminate|].
    intros Hm. apply IH in Hm. apply noComma_In in Hm. congruence.
  - intros Hm [Heq | Hin]; [congruence | exact (IH Hm Hin)].
Qed.

(** X4.  The name of a parsed channel is the text after the last comma of
    the marker line, without surrounding white space; a marker line
    without a comma gives the name Unknown Channel. *)
Theorem parseExtInfLine_name (extinfLine urlLine : jsstring) (c : Channel) :
  parseExtInfLine extinfLine urlLine = Some c ->
  (~ In comma extinfLine /\ name c = lit "Unknown Channel")
  \/ (exists before after,
        extinfLine = before ++ comma :: after
        /\ ~ In comma after
        /\ name c = trim after).
Proof.
  intros Hp. apply parseExtInfLine_Some, parseExtInfLine_try_name in Hp as (Hn & _).
  rewrite Hn. unfold channelName.
  destruct (matchFirst nameRegex extinfLine) as [caps|] eqn:Hm.
  - right. apply matchFirst_nameRegex_Some in Hm as (before & after & He & Hafter & ->).
    exists before, after. auto.
  - left. split; [apply matchFirst_nameRegex_None, Hm | reflexivity].
Qed.

Lemma parseExtInfLine_name_witness :
  (~ In comma (lit "#EXTINF:-1 tvg-id=x,One, Two ")
   /\ lit "Two" = lit "Unknown Channel")
  \/ (exists before after,
        lit "#EXTINF:-1 tvg-id=x,One, Two " = before ++ comma :: after
        /\ ~ In comma after
        /\ lit "Two" = trim after).
Proof.
  apply (parseExtInfLine_name (lit "#EXTINF:-1 tvg-id=x,One, Two ")
           (lit "http://example.com/2")
           {| id := lit "VHdvaHR0cDovL2V4"; name := lit "Two";
              url := lit "http://example.com/2"; group := None; logo := None;
              country := None; language := None; tvgId := Some (lit "x");
              tvgName := None |}).
  vm_compute. reflexivity.
Defined.

(** *** Blank lines, line endings, concatenation *)

Lemma split_chars sep s seg c : In seg (split sep s) -> In c seg -> In c s.
Proof.
  revert seg. induction s as [|d s IH]; intros seg Hseg Hc.
  - destruct Hseg as [<- | []]. destruct Hc.
  - cbn [split] in Hseg. destruct (d =? sep).
    + destruct Hseg as [<- | Hseg]; [destruct Hc | right; exact (IH seg Hseg Hc)].
    + destruct (split sep s) as [|seg0 segs] eqn:E.
      * destruct Hseg as [<- | []]. destruct Hc as [<- | []]. left. reflexivity.
      * destruct Hseg as [<- | Hseg].
        -- destruct Hc as [<- | Hc]; [left; reflexivity|].
           right. apply (IH seg0); [left; reflexivity | exact Hc].
        -- right. apply (IH seg); [right; exact Hseg | exact Hc].
Qed.

Lemma trimStart_blank s : forallb isWhiteSpace s = true -> trimStart s = [].
Proof.
  induction s as [|c s IH]; cbn [forallb trimStart]; [reflexivity|].
  intros H. apply andb_true_iff in H as [-> Hs]. exact (IH Hs).
Qed.

Lemma trim_blank s : forallb isWhiteSpace s = true -> trim s = [].
Proof. intros H. unfold trim. rewrite (trimStart_blank s H). reflexivity. Qed.

Lemma splitLines_blank w : forallb isWhiteSpace w = true -> splitLines w = [].
Proof.
  intros Hw. unfold splitLines.
  assert (Hall : forall seg, In seg (split newline w) -> trim seg = []).
  { intros seg Hseg. apply trim_blank, forallb_forall. intros c Hc.
    rewrite forallb_forall in Hw. apply Hw, (split_chars newline w seg c Hseg Hc). }
  induction (split newline w) as [|seg segs IH]; [reflexivity|].
  cbn [List.map List.filter]. rewrite (Hall seg) by (left; reflexivity).
  cbn [truthy]. apply IH. intros seg' Hin. apply Hall. right. exact Hin.
Qed.

Lemma trimStart_app s t :
  trimStart (s ++ t)
  = if forallb isWhiteSpace s then trimStart t else trimStart s ++ t.
Proof.
  induction s as [|c s IH]; cbn [app trimStart forallb]; [reflexivity|].
  destruct (isWhiteSpace c); cbn [andb]; [exact IH | reflexivity].
Qed.

Lemma trimEnd_snoc_space t w : isWhiteSpace w = true -> trimEnd (t ++ [w]) = trimEnd t.
Proof.
  intros Hw. unfold trimEnd. rewrite rev_unit. cbn [trimStart]. rewrite Hw. reflexivity.
Qed.

Lemma trim_snoc_space s w : isWhiteSpace w = true -> trim (s ++ [w]) = trim s.
Proof.
  intros Hw. unfold trim. rewrite trimStart_app.
  destruct (forallb isWhiteSpace s) eqn:Hs.
  - cbn [trimStart]. rewrite Hw, (trimStart_blank s Hs). reflexivity.
  - apply trimEnd_snoc_space, Hw.
Qed.

Lemma split_snoc sep s c :
  (c =? sep) = false ->
  split sep (s ++ [c])
  = removelast (split sep s) ++ [List.last (split sep s) [] ++ [c]].
Proof.
  intros Hc. induction s as [|d s IH]; cbn [app split].
  - rewrite Hc. reflexivity.
  - pose proof (split_nonempty sep s) as Hne.
    destruct (d =? sep).
    + rewrite IH. destruct (split sep s) as [|seg segs]; [contradiction | reflexivity].
    + rewrite IH. destruct (split sep s) as [|seg [|seg' segs]];
        [contradiction | reflexivity | reflexivity].
Qed.

Lemma splitLines_snoc_space a w :
  isWhiteSpace w = true -> splitLines (a ++ [w]) = splitLines a.
Proof.
  intros Hw. destruct (N.eqb_spec w newline) as [->|Hne].
  - rewrite splitLines_app. cbn. apply app_nil_r.
  - unfold splitLines. rewrite split_snoc by (apply N.eqb_neq, Hne).
    pose proof (split_nonempty newline a) as Hnonempty.
    rewrite (app_removelast_last [] Hnonempty) at 3.
    rewrite !List.map_app, !List.filter_app. cbn [List.map List.filter].
    rewrite trim_snoc_space by exact Hw. reflexivity.
Qed.

(** X5.  Blank lines do not count: a line made of white space only,
    anywhere in the text, can be removed without changing what
    [parseFromContent] returns. *)
Theorem parseFromContent_ignores_blank_lines (before blank after : jsstring) :
  forallb isWhiteSpace blank = true ->
  parseFromContent (before ++ newline :: blank ++ newline :: after)
  = parseFromContent (before ++ newline :: after)
  /\ parseFromContent (blank ++ newline :: after) = parseFromContent after
  /\ parseFromContent (before ++ newline :: blank) = parseFromContent before.
Proof.
  intros Hw. unfold parseFromContent.
  replace (before ++ newline :: blank ++ newline :: after)
    with (before ++ newline :: (blank ++ newline :: after)) by reflexivity.
  rewrite !splitLines_app, (splitLines_blank blank Hw), app_nil_r.
  repeat split; reflexivity.
Qed.

Lemma parseFromContent_ignores_blank_lines_witness :
  parseFromContent (lit "#EXTINF:-1,One" ++ newline :: [32; 9; 13] ++ newline :: lit "http://a/1")
  = parseFromContent (lit "#EXTINF:-1,One" ++ newline :: lit "http://a/1")
  /\ parseFromContent ([32; 9; 13] ++ newline :: lit "http://a/1")
     = parseFromContent (lit "http://a/1")
  /\ parseFromContent (lit "#EXTINF:-1,One" ++ newline :: [32; 9; 13])
     = parseFromContent (lit "#EXTINF:-1,One").
Proof.
  apply (parseFromContent_ignores_blank_lines (lit "#EXTINF:-1,One") [32; 9; 13]
           (lit "http://a/1")).
  reflexivity.
Defined.

(** X6.  Line endings do not count: a carriage return (or any other white
    space) in front of a line break or at the end of the text can be
    removed without changing what [parseFromContent] returns. *)
Theorem parseFromContent_ignores_carriage_return (before after : jsstring) (w : N) :
  isWhiteSpace w = true ->
  parseFromContent (before ++ w :: newline :: after)
  = parseFromContent (before ++ newline :: after)
  /\ parseFromContent (before ++ [w]) = parseFromContent before.
Proof.
  intros Hw. unfold parseFromContent.
  replace (before ++ w :: newline :: after)
    with ((before ++ [w]) ++ newline :: after) by (rewrite <- app_assoc; reflexivity).
  rewrite !splitLines_app, (splitLines_snoc_space before w Hw).
  split; reflexivity.
Qed.

Lemma parseFromContent_ignores_carriage_return_witness :
  parseFromContent (lit "#EXTINF:-1,One" ++ 13 :: newline :: lit "http://a/1")
  = parseFromContent (lit "#EXTINF:-1,One" ++ newline :: lit "http://a/1")
  /\ parseFromContent (lit "#EXTINF:-1,One" ++ [13]) = parseFromContent (lit "#EXTINF:-1,One").
Proof.
  apply (parseFromContent_ignores_carriage_return (lit "#EXTINF:-1,One") (lit "http://a/1") 13).
  reflexivity.
Defined.

(** X7.  Two playlists joined by a line break parse to the channels of the
    first followed by the channels of the second, provided the first
    non-blank line of the second is a comment line such as the [#EXTM3U]
    header or a marker line. *)
Theorem parseFromContent_concatenation (first second h : jsstring) (t : list jsstring) :
  splitLines second = h :: t ->
  isComment h = true ->
  channels (parseFromContent (first ++ newline :: second))
  = channels (parseFromContent first) ++ channels (parseFromContent second)
  /\ totalChannels (parseFromContent (first ++ newline :: second))
     = (totalChannels (parseFromContent first)
        + totalChannels (parseFromContent second))%nat.
Proof.
  intros Hsplit Hh. unfold parseFromContent. cbn [channels totalChannels].
  rewrite splitLines_app, Hsplit, (parseLines_app_comment _ h t Hh), length_app.
  split; reflexivity.
Qed.

Lemma parseFromContent_concatenation_witness :
  channels (parseFromContent
              ((lit "#EXTINF:-1,One" ++ newline :: lit "http://a/1")
               ++ newline :: lit "#EXTM3U" ++ newline :: lit "#EXTINF:-1,Two"
               ++ newline :: lit "http://a/2"))
  = channels (parseFromContent (lit "#EXTINF:-1,One" ++ newline :: lit "http://a/1"))
    ++ channels (parseFromContent
                   (lit "#EXTM3U" ++ newline :: lit "#EXTINF:-1,Two"
                    ++ newline :: lit "http://a/2"))
  /\ totalChannels (parseFromContent
                      ((lit "#EXTINF:-1,One" ++ newline :: lit "http://a/1")
                       ++ newline :: lit "#EXTM3U" ++ newline :: lit "#EXTINF:-1,Two"
                       ++ newline :: lit "http://a/2"))
     = (totalChannels (parseFromContent (lit "#EXTINF:-1,One" ++ newline :: lit "http://a/1"))
        + totalChannels (parseFromContent
                           (lit "#EXTM3U" ++ newline :: lit "#EXTINF:-1,Two"
                            ++ newline :: lit "http://a/2")))%nat.
Proof.
  apply (parseFromContent_concatenation
           (lit "#EXTINF:-1,One" ++ newline :: lit "http://a/1")
           (lit "#EXTM3U" ++ newline :: lit "#EXTINF:-1,Two" ++ newline :: lit "http://a/2")
           (lit "#EXTM3U") [lit "#EXTINF:-1,Two"; lit "http://a/2"]);
    vm_compute; reflexivity.
Defined.

(** Without the comment line the join is not a concatenation: a marker
    line that ends the first text takes the first line of the second. *)
Example parseFromContent_join_takes_url :
  totalChannels (parseFromContent (lit "#EXTINF:-1,One" ++ newline :: lit "http://a/1")) = 1%nat
  /\ totalChannels (parseFromContent (lit "#EXTINF:-1,One")) = 0%nat
  /\ totalChannels (parseFromContent (lit "http://a/1")) = 0%nat.
Proof. vm_compute. repeat split; reflexivity. Qed.

Lemma countParsedPairs_le lines : (countParsedPairs lines <= countMarkedPairs lines)%nat.
Proof.
  induction lines as [|x l IH]; [reflexivity|].
  destruct l as [|y l']; [reflexivity|].
  change (countParsedPairs (x :: y :: l'))
    with ((if isExtInf x && negb (isComment y)
              && bool_decide (is_Some (parseExtInfLine x y))
           then 1 else 0) + countParsedPairs (y :: l'))%nat.
  change (countMarkedPairs (x :: y :: l'))
    with ((if isExtInf x && negb (isComment y) then 1 else 0)
          + countMarkedPairs (y :: l'))%nat.
  destruct (isExtInf x && negb (isComment y)); cbn [andb].
  - destruct (bool_decide _); lia.
  - lia.
Qed.

Lemma parseLines_half lines : (2 * length (parseLines lines) <= length lines)%nat.
Proof.
  induction lines as [| x | x y l IHl IHyl] using list_pair_ind.
  - reflexivity.
  - cbn [parseLines]. destruct (isExtInf x); cbn; lia.
  - assert (Hskip : (2 * length (parseLines (y :: l)) <= length (x :: y :: l))%nat).
    { cbn [length] in *. lia. }
    cbn [parseLines].
    destruct (isExtInf x); [|exact Hskip].
    destruct (truthy y && negb (isComment y)); [|exact Hskip].
    destruct (parseExtInfLine x y); cbn [length]; lia.
Qed.

(** X8.  [parseFromContent] never returns more channels than there are
    marker lines immediately followed by a non-comment line, nor more than
    half the number of non-blank lines. *)
Theorem parseFromContent_count_bounds (content : jsstring) :
  (totalChannels (parseFromContent content) <= countMarkedPairs (splitLines content))%nat
  /\ (2 * totalChannels (parseFromContent content) <= length (splitLines content))%nat.
Proof.
  split.
  - rewrite (proj1 (parseFromContent_count content)). apply countParsedPairs_le.
  - apply parseLines_half.
Qed.

(** *** Attributes *)

Section MatcherSuffix.
Context {R : Type}.

(** The continuation is reached on a suffix of the input. *)
Definition reachesSuffix (m : @matcher R) : Prop :=
  forall s caps k x,
    m s caps k = Some x ->
    exists consumed s1 caps1, s = consumed ++ s1 /\ k s1 caps1 = Some x.

Lemma repeatMatcher_suffix step fuel :
  reachesSuffix step -> reachesSuffix (repeatMatcher step fuel).
Proof.
  intros Hstep. induction fuel as [|fuel IH]; intros s caps k x Hrun.
  - exists [], s, caps. split; [reflexivity | exact Hrun].
  - cbn [repeatMatcher] in Hrun.
    match type of Hrun with
    | match ?call with _ => _ end = _ => destruct call as [y|] eqn:Hcall
    end.
    + injection Hrun as ->.
      destruct (Hstep _ _ _ _ Hcall) as (c1 & s1 & caps1 & -> & Hk).
      destruct (length s1 <? length (c1 ++ s1))%nat; [|discriminate].
      destruct (IH _ _ _ _ Hk) as (c2 & s2 & caps2 & -> & Hk2).
      exists (c1 ++ c2), s2, caps2. split; [apply app_assoc | exact Hk2].
    + exists [], s, caps. split; [reflexivity | exact Hrun].
Qed.

Lemma compile_suffix r : reachesSuffix (compile r).
Proof.
  induction r as [p | r1 IH1 r2 IH2 | r1 IH1 r2 IH2 | r1 IH1 | n r1 IH1 |];
    intros s caps k x Hrun; cbn [compile] in Hrun.
  - destruct s as [|c s']; [discriminate|]. destruct (p c); [|discriminate].
    exists [c], s', caps. split; [reflexivity | exact Hrun].
  - destruct (IH1 _ _ _ _ Hrun) as (c1 & s1 & caps1 & -> & Hk1).
    destruct (IH2 _ _ _ _ Hk1) as (c2 & s2 & caps2 & -> & Hk2).
    exists (c1 ++ c2), s2, caps2. split; [apply app_assoc | exact Hk2].
  - destruct (compile r1 s caps k) as [y|] eqn:Hleft.
    + injection Hrun as ->. exact (IH1 _ _ _ _ Hleft).
    + exact (IH2 _ _ _ _ Hrun).
  - exact (repeatMatcher_suffix _ _ IH1 _ _ _ _ Hrun).
  - destruct (IH1 _ _ _ _ Hrun) as (c1 & s1 & caps1 & -> & Hk1).
    eexists c1, s1, _. split; [reflexivity | exact Hk1].
  - destruct s; [|discriminate]. exists [], [], caps. split; [reflexivity | exact Hrun].
Qed.

End MatcherSuffix.

Definition equalsSign : N := 61.

Lemma compile_Seq {R} r1 r2 s caps (k : @continuation R) :
  compile (Seq r1 r2) s caps k
  = compile r1 s caps (fun s1 caps1 => compile r2 s1 caps1 k).
Proof. reflexivity. Qed.

(** The attribute pattern matches only where an equals sign follows. *)
Lemma matchAt_attributeRegex_equals s rest caps :
  matchAt attributeRegex s = Some (rest, caps) -> In equalsSign s.
Proof.
  unfold matchAt, attributeRegex. rewrite compile_Seq. intros Hrun.
  apply compile_suffix in Hrun as (consumed & s1 & caps1 & -> & Hk).
  apply in_or_app. right. rewrite compile_Seq in Hk.
  destruct s1 as [|c s1]; [discriminate|].
  unfold Chr at 1 in Hk. cbn [compile] in Hk.
  destruct (N.eqb_spec 61 c) as [<-|_]; [left; reflexivity | discriminate].
Qed.

Lemma execAll_attributeRegex_none s :
  ~ In equalsSign s -> execAll attributeRegex s 0 = [].
Proof.
  induction s as [|c s IH]; intros Hno; cbn [execAll].
  - destruct (matchAt attributeRegex []) as [[rest caps]|] eqn:Hm; [|reflexivity].
    apply matchAt_attributeRegex_equals in Hm. destruct Hm.
  - destruct (matchAt attributeRegex (c :: s)) as [[rest caps]|] eqn:Hm.
    + apply matchAt_attributeRegex_equals in Hm. contradiction.
    + apply IH. intros Hin. apply Hno. right. exact Hin.
Qed.

(** X9.  A marker line without an equals sign carries no attribute: the
    channel parsed from it has no group, logo, country, language, tvgId
    or tvgName. *)
Theorem parseExtInfLine_no_attributes (extinfLine urlLine : jsstring) (c : Channel) :
  ~ In equalsSign extinfLine ->
  parseExtInfLine extinfLine urlLine = Some c ->
  group c = None /\ logo c = None /\ country c = None
  /\ language c = None /\ tvgId c = None /\ tvgName c = None.
Proof.
  intros Hno Hp. apply parseExtInfLine_Some in Hp. unfold parseExtInfLine_try, bind in Hp.
  destruct (generateChannelId _ urlLine); [|discriminate]. injection Hp as <-.
  cbn [group logo country language tvgId tvgName].
  unfold extractAttributes. rewrite (execAll_attributeRegex_none _ Hno).
  cbn [fold_left]. rewrite !lookup_empty. repeat split; reflexivity.
Qed.

Lemma parseExtInfLine_no_attributes_witness :
  group (Build_Channel (lit "T25lIEhEaHR0cDov") (lit "One HD") (lit "http://a/1")
           None None None None None None) = None
  /\ logo (Build_Channel (lit "T25lIEhEaHR0cDov") (lit "One HD") (lit "http://a/1")
             None None None None None None) = None
  /\ country (Build_Channel (lit "T25lIEhEaHR0cDov") (lit "One HD") (lit "http://a/1")
                None None None None None None) = None
  /\ language (Build_Channel (lit "T25lIEhEaHR0cDov") (lit "One HD") (lit "http://a/1")
                 None None None None None None) = None
  /\ tvgId (Build_Channel (lit "T25lIEhEaHR0cDov") (lit "One HD") (lit "http://a/1")
              None None None None None None) = None
  /\ tvgName (Build_Channel (lit "T25lIEhEaHR0cDov") (lit "One HD") (lit "http://a/1")
                None None None None None None) = None.
Proof.
  apply (parseExtInfLine_no_attributes (lit "#EXTINF:-1 tvg-id,One HD") (lit "http://a/1")).
  - vm_compute. intuition discriminate.
  - vm_compute. reflexivity.
Defined.

End ParserExtras.

(* ===================================================================== *)
(** ** Searching and grouping: failure and edge cases *)
(* ===================================================================== *)

Module RegistryExtras.
Import JS JSFacts M3UParser GroupingFacts.

(** [s.includes(q)] on strings: [q] occurs in [s] at some position. *)
Fixpoint includesString (s q : jsstring) : bool :=
  startsWith s q
  || match s with
     | [] => false
     | _ :: s' => includesString s' q
     end.

Section Search.
(** [String.prototype.toLowerCase], which follows the Unicode case
    mappings, is left to the platform. *)
Variable toLowerCase : jsstring -> jsstring.

(** [field && field.toLowerCase().includes(lowerQuery)], as the filter
    reads it. *)
Definition fieldMatches (field : option jsstring) (lowerQuery : jsstring) : bool :=
  match field with
  | Some text => truthy text && includesString (toLowerCase text) lowerQuery
  | None => false
  end.

Definition searchChannels (channels : list Channel) (query : jsstring) : list Channel :=
  let lowerQuery := toLowerCase query in
  List.filter
    (fun channel =>
       includesString (toLowerCase (name channel)) lowerQuery
       || fieldMatches (group channel) lowerQuery
       || fieldMatches (country channel) lowerQuery)
    channels.

Lemma includesString_empty s : includesString s [] = true.
Proof. destruct s; reflexivity. Qed.

Lemma filter_all {A} (f : A -> bool) l :
  (forall x, In x l -> f x = true) -> List.filter f l = l.
Proof.
  induction l as [|x l IH]; intros H; [reflexivity|].
  cbn [List.filter]. rewrite (H x) by (left; reflexivity).
  rewrite IH; [reflexivity|]. intros y Hy. apply H. right. exact Hy.
Qed.

(** X10.  Searching for the empty string returns the whole list,
    unchanged and in order (the empty string lower-cases to itself). *)
Theorem searchChannels_empty_query (channels : list Channel) :
  toLowerCase [] = [] ->
  searchChannels channels [] = channels.
Proof.
  intros Hlower. unfold searchChannels. rewrite Hlower.
  apply filter_all. intros c _. rewrite includesString_empty. reflexivity.
Qed.

End Search.

(** Lower-casing of the ASCII letters only, enough to run the search on
    ASCII text. *)
Definition asciiLower (s : jsstring) : jsstring :=
  List.map (fun c => if (65 <=? c) && (c <=? 90) then c + 32 else c) s.

Lemma searchChannels_empty_query_witness :
  searchChannels asciiLower sampleChannels [] = sampleChannels.
Proof. apply (searchChannels_empty_query asciiLower sampleChannels). reflexivity. Defined.

Lemma forEach_app {A S} (f : S -> A -> completion S) l1 l2 acc :
  forEach f (l1 ++ l2) acc = (let* mid := forEach f l1 acc in forEach f l2 mid).
Proof.
  revert acc. induction l1 as [|x l1 IH]; intros acc; cbn [app forEach bind]; [reflexivity|].
  destruct (f acc x) as [acc'|e]; cbn [bind]; [apply IH | reflexivity].
Qed.

Definition inheritedCategory (c : Channel) : bool :=
  includes objectPrototypeKeys (categoryOf c).

Lemma first_inherited channels :
  existsb inheritedCategory channels = true ->
  exists done c rest,
    channels = done ++ c :: rest
    /\ Forall safeCategory done /\ inheritedCategory c = true.
Proof.
  induction channels as [|x l IH]; [discriminate|]. cbn [existsb].
  destruct (inheritedCategory x) eqn:Hx; cbn [orb].
  - intros _. exists [], x, l. split; [reflexivity|]. split; [constructor | exact Hx].
  - intros H. destruct (IH H) as (done & c & rest & -> & Hdone & Hc).
    exists (x :: done), c, rest. split; [reflexivity|]. split; [|exact Hc].
    constructor; [exact Hx | exact Hdone].
Qed.

Lemma all_safe channels :
  existsb inheritedCategory channels = false -> Forall safeCategory channels.
Proof.
  induction channels as [|x l IH]; cbn [existsb]; [constructor|].
  intros H. apply orb_false_iff in H as [Hx Hl]. constructor; [exact Hx | exact (IH Hl)].
Qed.

(** X11.  [groupChannelsByCategory] throws exactly when some channel's
    category is the name of a member of [Object.prototype]; what it throws
    is a [TypeError], and in every other case it returns the grouping. *)
Theorem groupChannelsByCategory_throws_iff (channels : list Channel) :
  (groupChannelsByCategory channels = Throw TypeError
   <-> existsb (fun c => includes objectPrototypeKeys (categoryOf c)) channels = true)
  /\ (forall e, groupChannelsByCategory channels = Throw e -> e = TypeError)
  /\ (existsb (fun c => includes objectPrototypeKeys (categoryOf c)) channels = false ->
      exists grouped, groupChannelsByCategory channels = Ok grouped).
Proof.
  fold inheritedCategory.
  assert (Hinit : groupedFor [] ∅).
  { split; [intros key; apply lookup_empty|].
    unfold flatten. rewrite map_to_list_empty. reflexivity. }
  assert (Hthrow : existsb inheritedCategory channels = true ->
                   groupChannelsByCategory channels = Throw TypeError).
  { intros Hex. apply first_inherited in Hex as (done & c & rest & -> & Hdone & Hc).
    unfold groupChannelsByCategory. rewrite forEach_app.
    destruct (forEach_groupChannel done [] ∅ Hinit Hdone) as (g & -> & Hkeys & _).
    cbn [bind forEach app] in *. unfold groupChannel at 1, getProperty.
    rewrite Hkeys.
    assert (Hnone : membersOf (categoryOf c) done = []).
    { unfold membersOf. destruct (List.filter _ done) as [|m ms] eqn:E; [reflexivity|].
      assert (Hm : In m (List.filter (fun c0 => bool_decide (categoryOf c0 = categoryOf c)) done)).
      { rewrite E. left. reflexivity. }
      apply filter_In in Hm as [Hm Heq]. apply bool_decide_eq_true in Heq.
      rewrite List.Forall_forall in Hdone. specialize (Hdone m Hm).
      unfold safeCategory in Hdone. unfold inheritedCategory in Hc.
      rewrite Heq in Hdone. congruence. }
    rewrite Hnone. cbn [asGroup]. unfold inheritedCategory in Hc. rewrite Hc. reflexivity. }
  assert (Hok : existsb inheritedCategory channels = false ->
                exists grouped, groupChannelsByCategory channels = Ok grouped).
  { intros Hno. apply all_safe in Hno.
    destruct (forEach_groupChannel channels [] ∅ Hinit Hno) as (g & Hrun & _).
    exists g. exact Hrun. }
  destruct (existsb inheritedCategory channels) eqn:Hex.
  - rewrite (Hthrow eq_refl). split; [split; reflexivity|].
    split; [intros e [= <-]; reflexivity | discriminate].
  - destruct (Hok eq_refl) as (g & Hg). rewrite Hg.
    split; [split; discriminate|]. split; [discriminate|].
    intros _. exists g. reflexivity.
Qed.

Lemma groupChannelsByCategory_throws_iff_witness :
  exists grouped, groupChannelsByCategory sampleChannels = Ok grouped.
Proof.
  apply (proj2 (proj2 (groupChannelsByCategory_throws_iff sampleChannels))).
  vm_compute. reflexivity.
Defined.

End RegistryExtras.

(* ===================================================================== *)
(** ** More on the favorites hook *)
(* ===================================================================== *)

Module FavoritesExtras.
Import JS JSFacts UseFavorites.

(** Calls of the other callbacks of the current render: each hands its
    updater to [setFavorites]. *)
Definition callAddFavorite (channelId : jsstring) (h : Hook) : Hook :=
  {| favorites := favorites h; pending := addFavorite channelId (pending h) |}.

Definition callRemoveFavorite (channelId : jsstring) (h : Hook) : Hook :=
  {| favorites := favorites h; pending := removeFavorite channelId (pending h) |}.

Definition callClearFavorites (h : Hook) : Hook :=
  {| favorites := favorites h; pending := clearFavorites (pending h) |}.

(** [favoritesCount] of the manager a render returns. *)
Definition favoritesCount (h : Hook) : nat := length (favorites h).

(** What can happen to the hook: a call of one of its callbacks, or a
    render. *)
Inductive event :=
| Toggle (channelId : jsstring)
| Add (channelId : jsstring)
| Remove (channelId : jsstring)
| Clear
| Render.

Definition step (h : Hook) (e : event) : Hook :=
  match e with
  | Toggle x => callToggleFavorite x h
  | Add x => callAddFavorite x h
  | Remove x => callRemoveFavorite x h
  | Clear => callClearFavorites h
  | Render => render h
  end.

Definition run (h : Hook) (events : list event) : Hook := fold_left step events h.

Lemma includes_false l x : includes l x = false <-> ~ In x l.
Proof.
  rewrite <- includes_In. destruct (includes l x); split; congruence.
Qed.

Lemma removeFavorite_id x l : ~ In x l -> removeFavorite x l = l.
Proof.
  intros Hx. unfold removeFavorite. induction l as [|y l IH]; [reflexivity|].
  cbn [List.filter]. rewrite bool_decide_eq_false_2 by (intros ->; apply Hx; left; reflexivity).
  cbn [negb]. rewrite IH; [reflexivity|]. intros Hin. apply Hx. right. exact Hin.
Qed.

Lemma removeFavorite_app x l1 l2 :
  removeFavorite x (l1 ++ l2) = removeFavorite x l1 ++ removeFavorite x l2.
Proof. apply List.filter_app. Qed.

Lemma removeFavorite_addFavorite x l :
  removeFavorite x (addFavorite x l) = removeFavorite x l.
Proof.
  unfold addFavorite. destruct (includes l x); cbn [negb]; [reflexivity|].
  rewrite removeFavorite_app. unfold removeFavorite at 2. cbn [List.filter].
  rewrite bool_decide_eq_true_2 by reflexivity. cbn [negb]. apply app_nil_r.
Qed.

Lemma removeFavorite_idempotent x l :
  removeFavorite x (removeFavorite x l) = removeFavorite x l.
Proof.
  apply removeFavorite_id. intros Hin. apply includes_In in Hin.
  rewrite removeFavorite_absent in Hin. discriminate.
Qed.

Lemma addFavorite_idempotent x l : addFavorite x (addFavorite x l) = addFavorite x l.
Proof. unfold addFavorite at 1. rewrite addFavorite_present. reflexivity. Qed.

(** X12.  [addFavorite] and [removeFavorite] decide on the current state,
    not on the render: called twice in a row, with or without a render in
    between and whatever updates are already queued, each has the effect
    of one call; after [addFavorite] the channel is a favorite, after
    [removeFavorite] it is not. *)
Theorem add_remove_idempotent (h : Hook) (x : jsstring) :
  callAddFavorite x (callAddFavorite x h) = callAddFavorite x h
  /\ render (callAddFavorite x (render (callAddFavorite x h)))
     = render (callAddFavorite x h)
  /\ callRemoveFavorite x (callRemoveFavorite x h) = callRemoveFavorite x h
  /\ render (callRemoveFavorite x (render (callRemoveFavorite x h)))
     = render (callRemoveFavorite x h)
  /\ isFavorite (favorites (render (callAddFavorite x h))) x = true
  /\ isFavorite (favorites (render (callRemoveFavorite x h))) x = false.
Proof.
  unfold callAddFavorite, callRemoveFavorite, render, isFavorite. cbn [favorites pending].
  rewrite addFavorite_idempotent, removeFavorite_idempotent,
    addFavorite_present, removeFavorite_absent.
  repeat split; reflexivity.
Qed.

(** X13.  Two clicks on the heart of a channel that is no favorite leave
    the list exactly as it was; two clicks on a favorite put it back as
    the last element, every other identifier keeping its place in the
    order. *)
Theorem click_twice_list (stored : list jsstring) (x : jsstring) :
  favorites (click x (click x (mount stored)))
  = if isFavorite stored x
    then List.filter (fun id => negb (bool_decide (id = x))) stored ++ [x]
    else stored.
Proof.
  unfold click, callToggleFavorite, render, mount, toggleFavorite, isFavorite.
  cbn [favorites pending].
  destruct (includes stored x) eqn:E.
  - rewrite removeFavorite_absent. unfold addFavorite.
    rewrite removeFavorite_absent. reflexivity.
  - rewrite addFavorite_present. unfold addFavorite. rewrite E. cbn [negb].
    rewrite removeFavorite_app, (removeFavorite_id x stored) by (apply includes_false, E).
    unfold removeFavorite. cbn [List.filter].
    rewrite bool_decide_eq_true_2 by reflexivity. apply app_nil_r.
Qed.

Lemma includes_removeFavorite_other x y l :
  y <> x -> includes (removeFavorite x l) y = includes l y.
Proof.
  intros Hne. destruct (includes l y) eqn:E.
  - apply includes_In. apply includes_In in E. apply filter_In. split; [exact E|].
    rewrite bool_decide_eq_false_2 by exact Hne. reflexivity.
  - apply includes_false. apply includes_false in E. intros Hin. apply E.
    apply filter_In in Hin as [Hin _]. exact Hin.
Qed.

Lemma includes_addFavorite_other x y l :
  y <> x -> includes (addFavorite x l) y = includes l y.
Proof.
  intros Hne. rewrite <- (includes_removeFavorite_other x y (addFavorite x l) Hne).
  rewrite removeFavorite_addFavorite. apply includes_removeFavorite_other, Hne.
Qed.

(** X14.  A toggle, add or remove of channel [x] touches no other
    identifier: with [x] left out, the list is the same before and after,
    in the same order; so every other identifier keeps its membership.
    This holds for a toggle whatever its render saw. *)
Theorem other_favorites_untouched (seen prev : list jsstring) (x y : jsstring) :
  y <> x ->
  removeFavorite x (toggleFavorite seen x prev) = removeFavorite x prev
  /\ removeFavorite x (addFavorite x prev) = removeFavorite x prev
  /\ includes (toggleFavorite seen x prev) y = includes prev y
  /\ includes (addFavorite x prev) y = includes prev y
  /\ includes (removeFavorite x prev) y = includes prev y.
Proof.
  intros Hne. unfold toggleFavorite.
  destruct (isFavorite seen x);
    rewrite ?removeFavorite_idempotent, ?removeFavorite_addFavorite,
      ?(includes_removeFavorite_other x y prev Hne),
      ?(includes_addFavorite_other x y prev Hne);
    repeat split; reflexivity.
Qed.

Lemma other_favorites_untouched_witness :
  removeFavorite (lit "b") (toggleFavorite [] (lit "b") [lit "a"; lit "b"; lit "c"])
  = removeFavorite (lit "b") [lit "a"; lit "b"; lit "c"]
  /\ removeFavorite (lit "b") (addFavorite (lit "b") [lit "a"; lit "b"; lit "c"])
     = removeFavorite (lit "b") [lit "a"; lit "b"; lit "c"]
  /\ includes (toggleFavorite [] (lit "b") [lit "a"; lit "b"; lit "c"]) (lit "c")
     = includes [lit "a"; lit "b"; lit "c"] (lit "c")
  /\ includes (addFavorite (lit "b") [lit "a"; lit "b"; lit "c"]) (lit "c")
     = includes [lit "a"; lit "b"; lit "c"] (lit "c")
  /\ includes (removeFavorite (lit "b") [lit "a"; lit "b"; lit "c"]) (lit "c")
     = includes [lit "a"; lit "b"; lit "c"] (lit "c").
Proof.
  apply (other_favorites_untouched [] [lit "a"; lit "b"; lit "c"] (lit "b") (lit "c")).
  discriminate.
Defined.

Lemma step_NoDup h e :
  List.NoDup (favorites h) /\ List.NoDup (pending h) ->
  List.NoDup (favorites (step h e)) /\ List.NoDup (pending (step h e)).
Proof.
  intros [Hf Hp]. destruct e as [x | x | x | |]; cbn [step];
    unfold callToggleFavorite, callAddFavorite, callRemoveFavorite,
      callClearFavorites, render, toggleFavorite, clearFavorites;
    cbn [favorites pending]; split; try assumption.
  - destruct (isFavorite (favorites h) x);
      [apply removeFavorite_NoDup | apply addFavorite_NoDup]; exact Hp.
  - apply addFavorite_NoDup, Hp.
  - apply removeFavorite_NoDup, Hp.
  - constructor.
Qed.

(** X15.  The list of favorites never holds an identifier twice: started
    with a list without duplicates (the empty list of a first visit, for
    one), the hook keeps it so through every sequence of toggle, add,
    remove and clear calls and renders, calls of a stale callback
    included. *)
Theorem favorites_never_duplicated (stored : list jsstring) (events : list event) :
  List.NoDup stored ->
  List.NoDup (favorites (run (mount stored) events))
  /\ List.NoDup (pending (run (mount stored) events)).
Proof.
  intros Hnd. unfold run.
  assert (Hinit : List.NoDup (favorites (mount stored)) /\ List.NoDup (pending (mount stored))).
  { split; exact Hnd. }
  revert Hinit. generalize (mount stored) as h.
  induction events as [|e events IH]; intros h Hh; [exact Hh|].
  cbn [fold_left]. apply IH, step_NoDup, Hh.
Qed.

Lemma favorites_never_duplicated_witness :
  List.NoDup (favorites (run (mount [lit "a"])
                           [Toggle (lit "b"); Toggle (lit "b"); Add (lit "a"); Render;
                            Remove (lit "c"); Toggle (lit "a"); Render]))
  /\ List.NoDup (pending (run (mount [lit "a"])
                            [Toggle (lit "b"); Toggle (lit "b"); Add (lit "a"); Render;
                             Remove (lit "c"); Toggle (lit "a"); Render])).
Proof.
  apply (favorites_never_duplicated [lit "a"]).
  repeat constructor. intros [].
Defined.

Lemma removeFavorite_length x l :
  List.NoDup l -> In x l -> S (length (removeFavorite x l)) = length l.
Proof.
  induction l as [|y l IH]; intros Hnd Hin; [destruct Hin|].
  apply NoDup_cons_iff in Hnd as [Hy Hnd]. unfold removeFavorite. cbn [List.filter].
  destruct (decide (y = x)) as [->|Hne].
  - rewrite bool_decide_eq_true_2 by reflexivity. cbn [negb length].
    fold (removeFavorite x l). rewrite (removeFavorite_id x l Hy). reflexivity.
  - rewrite bool_decide_eq_false_2 by exact Hne. cbn [negb length].
    fold (removeFavorite x l). rewrite IH; [reflexivity | exact Hnd|].
    destruct Hin as [Heq | Hin]; [congruence | exact Hin].
Qed.

(** X16.  On a list without duplicates a click on the heart changes
    [favoritesCount] by exactly one: down when the channel was a
    favorite, up when it was not. *)
Theorem click_changes_count_by_one (stored : list jsstring) (x : jsstring) :
  List.NoDup stored ->
  (favoritesCount (click x (mount stored)) + (if isFavorite stored x then 1 else 0)
   = favoritesCount (mount stored) + (if isFavorite stored x then 0 else 1))%nat.
Proof.
  intros Hnd. unfold favoritesCount, click, callToggleFavorite, render, mount,
    toggleFavorite, isFavorite. cbn [favorites pending].
  destruct (includes stored x) eqn:E.
  - rewrite <- (removeFavorite_length x stored Hnd) by (apply includes_In, E). lia.
  - unfold addFavorite. rewrite E. cbn [negb]. rewrite length_app. cbn [length]. lia.
Qed.

Lemma click_changes_count_by_one_witness :
  (favoritesCount (click (lit "a") (mount [lit "a"; lit "b"]))
   + (if isFavorite [lit "a"; lit "b"] (lit "a") then 1 else 0)
   = favoritesCount (mount [lit "a"; lit "b"])
     + (if isFavorite [lit "a"; lit "b"] (lit "a") then 0 else 1))%nat.
Proof.
  apply (click_changes_count_by_one [lit "a"; lit "b"] (lit "a")).
  repeat constructor; cbn; intuition discriminate.
Defined.

End FavoritesExtras.

(* ===================================================================== *)
(** ** More on channel navigation and on loading the playlist *)
(* ===================================================================== *)

Module PageExtras.
Import JS JSFacts M3UParser Page.
Local Open Scope Z_scope.

(** A channel with a given identifier and name, for the examples. *)
Definition entry (ident label : jsstring) : Channel :=
  {| id := ident; name := label; url := lit "http://example.com/" ++ label;
     group := None; logo := None; country := None; language := None;
     tvgId := None; tvgName := None |}.

Definition lineup : ParsedPlaylist :=
  {| channels := [entry (lit "1") (lit "One"); entry (lit "2") (lit "Two");
                  entry (lit "3") (lit "Three")];
     totalChannels := 3 |}.

(** [findIndex] stops at the first channel that carries the identifier. *)
Lemma findIndexFrom_first (l : list Channel) : forall (i : nat) (base : Z) current holder,
  nth_error l i = Some holder ->
  id holder = id current ->
  (forall j c, (j < i)%nat -> nth_error l j = Some c -> id c <> id current) ->
  findIndexFrom (fun ch => bool_decide (id ch = id current)) base l = base + Z.of_nat i.
Proof.
  induction l as [|c l IH]; intros i base current holder Hnth Hid Hbefore.
  - destruct i; discriminate.
  - destruct i as [|i]; cbn [nth_error] in Hnth; cbn [findIndexFrom].
    + injection Hnth as ->. rewrite bool_decide_eq_true_2 by exact Hid. lia.
    + rewrite bool_decide_eq_false_2 by (apply (Hbefore 0%nat c); [lia | reflexivity]).
      rewrite (IH i (base + 1) current holder Hnth Hid); [lia|].
      intros j c' Hj Hc'. apply (Hbefore (S j) c'); [lia | exact Hc'].
Qed.

Lemma findIndexFrom_absent (l : list Channel) : forall (base : Z) current,
  ~ In (id current) (List.map id l) ->
  findIndexFrom (fun ch => bool_decide (id ch = id current)) base l = -1.
Proof.
  induction l as [|c l IH]; intros base current Hno; cbn [findIndexFrom]; [reflexivity|].
  rewrite bool_decide_eq_false_2.
  - apply IH. intros Hin. apply Hno. right. exact Hin.
  - intros Heq. apply Hno. left. exact Heq.
Qed.

(** Where [navigateChannel] lands once [findIndex] is known. *)
Lemma navigateChannel_from (pl : ParsedPlaylist) (current : Channel) (i : nat) :
  findIndex (fun ch => bool_decide (id ch = id current)) (channels pl) = Z.of_nat i ->
  (i < length (channels pl))%nat ->
  currentChannel (navigateChannel {| playlist := Some pl; currentChannel := Some current |} next)
  = nth_error (channels pl) ((i + 1) mod length (channels pl))
  /\ currentChannel (navigateChannel {| playlist := Some pl; currentChannel := Some current |} prev)
     = nth_error (channels pl) ((i + length (channels pl) - 1) mod length (channels pl)).
Proof.
  intros Hfind Hlt. unfold navigateChannel. cbn [playlist currentChannel].
  rewrite Hfind. set (n := length (channels pl)) in *.
  unfold remainder. destruct (Z.eqb_spec (Z.of_nat n) 0) as [E|_]; [lia|].
  split.
  - rewrite Z.rem_mod_nonneg by lia.
    replace (Z.of_nat i + 1) with (Z.of_nat (i + 1)) by lia.
    rewrite <- Nat2Z.inj_mod. cbn [at_index].
    destruct (Z.ltb_spec (Z.of_nat ((i + 1) mod n)) 0); [lia|].
    rewrite Nat2Z.id. reflexivity.
  - rewrite Z.rem_mod_nonneg by lia.
    replace (Z.of_nat i - 1 + Z.of_nat n) with (Z.of_nat (i + n - 1)) by lia.
    rewrite <- Nat2Z.inj_mod. cbn [at_index].
    destruct (Z.ltb_spec (Z.of_nat ((i + n - 1) mod n)) 0); [lia|].
    rewrite Nat2Z.id. reflexivity.
Qed.

Lemma findIndex_distinct (pl : ParsedPlaylist) (current : Channel) (i : nat) :
  List.NoDup (List.map id (channels pl)) ->
  nth_error (channels pl) i = Some current ->
  findIndex (fun ch => bool_decide (id ch = id current)) (channels pl) = Z.of_nat i.
Proof.
  intros Hnd Hnth. unfold findIndex. rewrite (findIndexFrom_nth _ _ 0 _ Hnd Hnth). lia.
Qed.

Lemma nth_error_mod {A} (l : list A) (i : nat) :
  l <> [] -> exists x, nth_error l (i mod length l) = Some x.
Proof.
  intros Hne. destruct (nth_error l (i mod length l)) as [x|] eqn:E; [eauto|].
  apply nth_error_None in E.
  assert (length l <> 0)%nat by (destruct l; [contradiction | discriminate]).
  pose proof (Nat.mod_upper_bound i (length l)). lia.
Qed.

Lemma succ_pred_mod (i n : nat) :
  (i < n)%nat -> (((i + 1) mod n + n - 1) mod n = i)%nat.
Proof.
  intros Hlt. destruct (Nat.eq_dec (i + 1)%nat n) as [E|E].
  - rewrite E, Nat.Div0.mod_same. rewrite Nat.mod_small; lia.
  - rewrite (Nat.mod_small (i + 1)%nat) by lia.
    replace (i + 1 + n - 1)%nat with (i + 1 * n)%nat by lia.
    rewrite Nat.Div0.mod_add. apply Nat.mod_small. exact Hlt.
Qed.

Lemma pred_succ_mod (i n : nat) :
  (i < n)%nat -> (((i + n - 1) mod n + 1) mod n = i)%nat.
Proof.
  intros Hlt. destruct i as [|i].
  - rewrite (Nat.mod_small (0 + n - 1)%nat) by lia.
    replace (0 + n - 1 + 1)%nat with n by lia. apply Nat.Div0.mod_same.
  - replace (S i + n - 1)%nat with (i + 1 * n)%nat by lia.
    rewrite Nat.Div0.mod_add, (Nat.mod_small i) by lia.
    rewrite Nat.mod_small; lia.
Qed.

(** [navigateChannel] leaves the playlist as it is. *)
Lemma navigateChannel_keeps_playlist (pl : ParsedPlaylist) (current : Channel) d :
  navigateChannel {| playlist := Some pl; currentChannel := Some current |} d
  = {| playlist := Some pl;
       currentChannel :=
         currentChannel
           (navigateChannel {| playlist := Some pl; currentChannel := Some current |} d) |}.
Proof. reflexivity. Qed.

(** X17.  In a playlist with distinct identifiers [next] and [prev] undo
    each other: from any channel of the playlist, next then prev, and
    prev then next, come back to that channel. *)
Theorem navigateChannel_round_trip (pl : ParsedPlaylist) (current : Channel) (i : nat) :
  List.NoDup (List.map id (channels pl)) ->
  nth_error (channels pl) i = Some current ->
  currentChannel
    (navigateChannel
       (navigateChannel {| playlist := Some pl; currentChannel := Some current |} next)
       prev)
  = Some current
  /\ currentChannel
       (navigateChannel
          (navigateChannel {| playlist := Some pl; currentChannel := Some current |} prev)
          next)
     = Some current.
Proof.
  intros Hnd Hnth.
  assert (Hlt : (i < length (channels pl))%nat) by (apply nth_error_Some; congruence).
  assert (Hne : channels pl <> []) by (destruct (channels pl); [cbn in Hlt; lia | discriminate]).
  assert (Hpos : length (channels pl) <> 0%nat) by lia.
  destruct (navigateChannel_from pl current i (findIndex_distinct pl current i Hnd Hnth) Hlt)
    as [Hnext Hprev].
  split.
  - destruct (nth_error_mod (channels pl) (i + 1) Hne) as (c1 & Hc1).
    rewrite navigateChannel_keeps_playlist, Hnext, Hc1.
    rewrite (proj2 (navigateChannel_from pl c1 _ (findIndex_distinct pl c1 _ Hnd Hc1)
                      (Nat.mod_upper_bound _ _ Hpos))).
    rewrite succ_pred_mod by exact Hlt. exact Hnth.
  - destruct (nth_error_mod (channels pl) (i + length (channels pl) - 1) Hne) as (c1 & Hc1).
    rewrite navigateChannel_keeps_playlist, Hprev, Hc1.
    rewrite (proj1 (navigateChannel_from pl c1 _ (findIndex_distinct pl c1 _ Hnd Hc1)
                      (Nat.mod_upper_bound _ _ Hpos))).
    rewrite pred_succ_mod by exact Hlt. exact Hnth.
Qed.

Lemma navigateChannel_round_trip_witness :
  currentChannel
    (navigateChannel
       (navigateChannel {| playlist := Some lineup;
                           currentChannel := Some (entry (lit "3") (lit "Three")) |} next)
       prev)
  = Some (entry (lit "3") (lit "Three"))
  /\ currentChannel
       (navigateChannel
          (navigateChannel {| playlist := Some lineup;
                              currentChannel := Some (entry (lit "3") (lit "Three")) |} prev)
          next)
     = Some (entry (lit "3") (lit "Three")).
Proof.
  apply (navigateChannel_round_trip lineup (entry (lit "3") (lit "Three")) 2).
  - repeat constructor; cbn; intuition discriminate.
  - reflexivity.
Defined.

(** [k] presses of the right arrow. *)
Fixpoint pressNext (k : nat) (st : PageState) : PageState :=
  match k with
  | O => st
  | S k' => navigateChannel (pressNext k' st) next
  end.

(** X18.  In a playlist of N channels with distinct identifiers, [k]
    presses of next from the channel at index [i] select the channel at
    index (i + k) mod N; so N presses come back to the start. *)
Theorem pressNext_cycles (pl : ParsedPlaylist) (current : Channel) (i k : nat) :
  List.NoDup (List.map id (channels pl)) ->
  nth_error (channels pl) i = Some current ->
  pressNext k {| playlist := Some pl; currentChannel := Some current |}
  = {| playlist := Some pl;
       currentChannel := nth_error (channels pl) ((i + k) mod length (channels pl)) |}
  /\ currentChannel
       (pressNext (length (channels pl))
          {| playlist := Some pl; currentChannel := Some current |})
     = Some current.
Proof.
  intros Hnd Hnth.
  assert (Hlt : (i < length (channels pl))%nat) by (apply nth_error_Some; congruence).
  assert (Hne : channels pl <> []) by (destruct (channels pl); [cbn in Hlt; lia | discriminate]).
  assert (Hpos : length (channels pl) <> 0%nat) by lia.
  assert (Hk : forall k,
             pressNext k {| playlist := Some pl; currentChannel := Some current |}
             = {| playlist := Some pl;
                  currentChannel := nth_error (channels pl) ((i + k) mod length (channels pl)) |}).
  { clear k. induction k as [|k IH]; cbn [pressNext].
    - rewrite Nat.add_0_r, Nat.mod_small by exact Hlt. rewrite Hnth. reflexivity.
    - rewrite IH.
      destruct (nth_error_mod (channels pl) (i + k) Hne) as (c1 & Hc1). rewrite Hc1.
      rewrite navigateChannel_keeps_playlist.
      rewrite (proj1 (navigateChannel_from pl c1 _ (findIndex_distinct pl c1 _ Hnd Hc1)
                        (Nat.mod_upper_bound _ _ Hpos))).
      rewrite Nat.Div0.add_mod_idemp_l. rewrite <- Nat.add_assoc, (Nat.add_1_r k).
      reflexivity. }
  split; [apply Hk|]. rewrite Hk. cbn [currentChannel].
  replace (i + length (channels pl))%nat with (i + 1 * length (channels pl))%nat by lia.
  rewrite Nat.Div0.mod_add, Nat.mod_small by exact Hlt. exact Hnth.
Qed.

Lemma pressNext_cycles_witness :
  pressNext 5 {| playlist := Some lineup;
                 currentChannel := Some (entry (lit "2") (lit "Two")) |}
  = {| playlist := Some lineup;
       currentChannel := nth_error (channels lineup) ((1 + 5) mod length (channels lineup)) |}
  /\ currentChannel
       (pressNext (length (channels lineup))
          {| playlist := Some lineup;
             currentChannel := Some (entry (lit "2") (lit "Two")) |})
     = Some (entry (lit "2") (lit "Two")).
Proof.
  apply (pressNext_cycles lineup (entry (lit "2") (lit "Two")) 1 5).
  - repeat constructor; cbn; intuition discriminate.
  - reflexivity.
Defined.

(** X19.  When the current channel's identifier is not in the playlist
    (a channel kept from an earlier playlist), [next] selects the first
    channel, and [prev] selects the channel at index N - 2, not the last
    one (the first one in a playlist of one channel); in an empty
    playlist both leave no channel selected. *)
Theorem navigateChannel_stale_current (pl : ParsedPlaylist) (current : Channel) :
  ~ In (id current) (List.map id (channels pl)) ->
  currentChannel (navigateChannel {| playlist := Some pl; currentChannel := Some current |} next)
  = nth_error (channels pl) 0
  /\ currentChannel (navigateChannel {| playlist := Some pl; currentChannel := Some current |} prev)
     = nth_error (channels pl) (length (channels pl) - 2).
Proof.
  intros Hno. unfold navigateChannel, findIndex. cbn [playlist currentChannel].
  rewrite (findIndexFrom_absent _ 0 _ Hno). unfold remainder.
  destruct (channels pl) as [|c0 [|c1 l]] eqn:E.
  - split; reflexivity.
  - split; reflexivity.
  - cbn [length]. set (n := length l).
    destruct (Z.eqb_spec (Z.of_nat (S (S n))) 0) as [E0|_]; [lia|].
    split.
    + replace (-1 + 1) with 0 by lia. rewrite Z.rem_0_l by lia. reflexivity.
    + replace (-1 - 1 + Z.of_nat (S (S n))) with (Z.of_nat n) by lia.
      rewrite Z.rem_small by lia. cbn [at_index].
      destruct (Z.ltb_spec (Z.of_nat n) 0); [lia|].
      rewrite Nat2Z.id. replace (S (S n) - 2)%nat with n by lia. reflexivity.
Qed.

Lemma navigateChannel_stale_current_witness :
  currentChannel (navigateChannel {| playlist := Some lineup;
                                     currentChannel := Some (entry (lit "9") (lit "Gone")) |} next)
  = nth_error (channels lineup) 0
  /\ currentChannel (navigateChannel {| playlist := Some lineup;
                                        currentChannel := Some (entry (lit "9") (lit "Gone")) |} prev)
     = nth_error (channels lineup) (length (channels lineup) - 2).
Proof.
  apply (navigateChannel_stale_current lineup (entry (lit "9") (lit "Gone"))).
  cbn. intuition discriminate.
Defined.

(** X20.  Navigation goes by identifier, not by position: from a channel
    whose identifier is first carried by the channel at index [i],
    [next] selects the channel at index (i + 1) mod N and [prev] the one
    at index (i + N - 1) mod N, wherever the current channel itself
    sits. *)
Theorem navigateChannel_by_first_holder
    (pl : ParsedPlaylist) (current holder : Channel) (i : nat) :
  nth_error (channels pl) i = Some holder ->
  id holder = id current ->
  (forall j c, (j < i)%nat -> nth_error (channels pl) j = Some c -> id c <> id current) ->
  currentChannel (navigateChannel {| playlist := Some pl; currentChannel := Some current |} next)
  = nth_error (channels pl) ((i + 1) mod length (channels pl))
  /\ currentChannel (navigateChannel {| playlist := Some pl; currentChannel := Some current |} prev)
     = nth_error (channels pl) ((i + length (channels pl) - 1) mod length (channels pl)).
Proof.
  intros Hnth Hid Hbefore. apply navigateChannel_from.
  - unfold findIndex. rewrite (findIndexFrom_first _ i 0 current holder Hnth Hid Hbefore). lia.
  - apply nth_error_Some. congruence.
Qed.

(** Two channels with one identifier, one after the other: [next] from
    the second selects the second again, and the third is never reached
    by pressing next. *)
Definition twins : ParsedPlaylist :=
  {| channels := [entry (lit "1") (lit "One"); entry (lit "1") (lit "One bis");
                  entry (lit "3") (lit "Three")];
     totalChannels := 3 |}.

Lemma navigateChannel_by_first_holder_witness :
  currentChannel (navigateChannel {| playlist := Some twins;
                                     currentChannel := Some (entry (lit "1") (lit "One bis")) |} next)
  = Some (entry (lit "1") (lit "One bis"))
  /\ currentChannel (navigateChannel {| playlist := Some twins;
                                        currentChannel := Some (entry (lit "1") (lit "One bis")) |} prev)
     = Some (entry (lit "3") (lit "Three")).
Proof.
  apply (navigateChannel_by_first_holder twins (entry (lit "1") (lit "One bis"))
           (entry (lit "1") (lit "One")) 0).
  - reflexivity.
  - reflexivity.
  - intros j c Hj. lia.
Defined.

End PageExtras.

(* ===================================================================== *)
(** ** Loading the playlist: parseFromUrl and the effect of page.tsx *)
(* ===================================================================== *)

Module LoadExtras.
Import JS JSFacts M3UParser ParserFacts ParserExtras PlaylistRoute.

(** [throw new Error('Failed to fetch playlist')] *)
Inductive LoadError := FailedToFetchPlaylist.

(** [M3UParser.parseFromUrl]: [fetch], then [response.text()], then
    [parseFromContent]; any exception on the way becomes the one error.
    The status of the response is not looked at. *)
Definition parseFromUrl (fetch : jsstring -> Upstream) (url : jsstring)
  : LoadError + ParsedPlaylist :=
  match fetch url with
  | Rejects _ => inl FailedToFetchPlaylist
  | Responds _ (Throw _) => inl FailedToFetchPlaylist
  | Responds _ (Ok content) => inr (parseFromContent content)
  end.

Definition M3U_PLAYLIST_URL : jsstring :=
  lit "https://gist.githubusercontent.com/reshmakunwar17/fb9fcd9c666671fa56e2bf635fbdbde4/raw/1eb176ade2328e78bb203f2b1ed4501a849fe59d/Tv.m3u".

(** The state of [IPTVApp] that loading writes. *)
Record AppState := {
  playlist : option ParsedPlaylist;
  currentChannel : option Channel;
  isLoading : bool;
  error : option jsstring
}.

(** The initial values of the four [useState] calls. *)
Definition initialState : AppState :=
  {| playlist := None; currentChannel := None; isLoading := true; error := None |}.

Definition connectionError : jsstring :=
  lit "Failed to load channel list. Please check your connection and try again.".

(** [loadPlaylist], the body of the mount effect. *)
Definition loadPlaylist (fetch : jsstring -> Upstream) (st : AppState) : AppState :=
  let started :=
    {| playlist := playlist st; currentChannel := currentChannel st;
       isLoading := true; error := None |} in
  let settled :=
    match parseFromUrl fetch M3U_PLAYLIST_URL with
    | inr parsedPlaylist =>
        {| playlist := Some parsedPlaylist;
           currentChannel :=
             match channels parsedPlaylist with
             | first :: _ => Some first
             | [] => currentChannel started
             end;
           isLoading := isLoading started; error := error started |}
    | inl _ =>
        {| playlist := playlist started; currentChannel := currentChannel started;
           isLoading := isLoading started; error := Some connectionError |}
    end in
  {| playlist := playlist settled; currentChannel := currentChannel settled;
     isLoading := false; error := error settled |}.

Definition hash : N := 35.

Lemma trim_chars s c : In c (trim s) -> In c s.
Proof.
  intros Hc. unfold trim in Hc.
  destruct (trimEnd_prefix (trimStart s)) as (w1 & H1 & _).
  destruct (trimStart_suffix s) as (w2 & H2 & _).
  rewrite H2. apply in_or_app. right. rewrite H1. apply in_or_app. left. exact Hc.
Qed.

Lemma parseLines_no_marker lines :
  Forall (fun line => isExtInf line = false) lines -> parseLines lines = [].
Proof.
  induction lines as [|x l IH]; intros Hall; [reflexivity|].
  apply Forall_cons_1 in Hall as [Hx Hl]. cbn [parseLines]. rewrite Hx. exact (IH Hl).
Qed.

Lemma parseFromContent_no_hash content :
  ~ In hash content -> channels (parseFromContent content) = [].
Proof.
  intros Hno. cbn [parseFromContent channels]. apply parseLines_no_marker.
  apply List.Forall_forall. intros line Hin. unfold splitLines in Hin.
  apply filter_In in Hin as [Hin _]. apply in_map_iff in Hin as (raw & <- & Hraw).
  destruct (trim raw) as [|c t] eqn:E; [reflexivity|].
  unfold isExtInf. cbn [lit List.map list_ascii_of_string startsWith].
  destruct (N.eqb_spec c (N_of_ascii "#")) as [Hc|_]; [|reflexivity].
  exfalso. apply Hno. apply (split_chars newline content raw); [exact Hraw|].
  apply trim_chars. rewrite E. left. exact Hc.
Qed.

(** X21.  Loading does not look at the HTTP status: whenever the body of
    the answer can be read, the app ends without an error, with the
    channels parsed from that body and the first of them selected.  So an
    answer whose body holds no [#] at all (the text of an error page, for
    one) leaves an empty channel list, no channel selected and no error
    shown. *)
Theorem loadPlaylist_ignores_status
    (fetch : jsstring -> Upstream) (upstream_status : Z) (content : jsstring) :
  fetch M3U_PLAYLIST_URL = Responds upstream_status (Ok content) ->
  loadPlaylist fetch initialState
  = {| playlist := Some (parseFromContent content);
       currentChannel := List.head (channels (parseFromContent content));
       isLoading := false; error := None |}
  /\ (~ In hash content ->
      loadPlaylist fetch initialState
      = {| playlist := Some {| channels := []; totalChannels := 0 |};
           currentChannel := None; isLoading := false; error := None |}).
Proof.
  intros Hfetch.
  assert (Hload : loadPlaylist fetch initialState
                  = {| playlist := Some (parseFromContent content);
                       currentChannel := List.head (channels (parseFromContent content));
                       isLoading := false; error := None |}).
  { unfold loadPlaylist, parseFromUrl. rewrite Hfetch.
    cbn [playlist currentChannel isLoading error initialState].
    destruct (channels (parseFromContent content)); reflexivity. }
  split; [exact Hload|].
  intros Hno. rewrite Hload.
  pose proof (parseFromContent_no_hash content Hno) as Hnone.
  unfold parseFromContent in *. cbn [channels] in Hnone. rewrite Hnone. reflexivity.
Qed.

(** A host that answers 404 with a short text. *)
Definition notFound (url : jsstring) : Upstream := Responds 404 (Ok (lit "404: Not Found")).

Lemma loadPlaylist_ignores_status_witness :
  loadPlaylist notFound initialState
  = {| playlist := Some {| channels := []; totalChannels := 0 |};
       currentChannel := None; isLoading := false; error := None |}.
Proof.
  refine (proj2 (loadPlaylist_ignores_status notFound 404 (lit "404: Not Found") _) _).
  - reflexivity.
  - vm_compute. intuition discriminate.
Defined.

(** X22.  Loading ends with the connection error, and leaves the playlist
    and the selection as they were, exactly when [fetch] rejects or the
    body cannot be read; in every case loading ends with [isLoading]
    false. *)
Theorem loadPlaylist_error_iff (fetch : jsstring -> Upstream) (st : AppState) :
  isLoading (loadPlaylist fetch st) = false
  /\ (error (loadPlaylist fetch st) = Some connectionError
      <-> (exists e, fetch M3U_PLAYLIST_URL = Rejects e)
          \/ (exists s e, fetch M3U_PLAYLIST_URL = Responds s (Throw e)))
  /\ (error (loadPlaylist fetch st) = Some connectionError ->
      playlist (loadPlaylist fetch st) = playlist st
      /\ currentChannel (loadPlaylist fetch st) = currentChannel st)
  /\ (error (loadPlaylist fetch st) <> Some connectionError ->
      error (loadPlaylist fetch st) = None).
Proof.
  unfold loadPlaylist, parseFromUrl.
  destruct (fetch M3U_PLAYLIST_URL) as [e | s [content | e]];
    cbn [playlist currentChannel isLoading error].
  - repeat split; eauto. congruence.
  - split; [reflexivity|]. split; [|split].
    + split; [discriminate|]. intros [[e H] | [s' [e H]]]; discriminate.
    + discriminate.
    + reflexivity.
  - repeat split; eauto. congruence.
Qed.

Definition offline : jsstring -> Upstream := fun _ => Rejects NetworkError.

Lemma loadPlaylist_error_iff_witness :
  error (loadPlaylist offline initialState) = Some connectionError
  /\ playlist (loadPlaylist offline initialState) = playlist initialState
  /\ currentChannel (loadPlaylist offline initialState) = currentChannel initialState.
Proof.
  assert (Herror : error (loadPlaylist offline initialState) = Some connectionError).
  { apply (proj1 (proj2 (loadPlaylist_error_iff offline initialState))).
    left. exists NetworkError. reflexivity. }
  split; [exact Herror|].
  apply (proj1 (proj2 (proj2 (loadPlaylist_error_iff offline initialState)))).
  exact Herror.
Defined.

End LoadExtras.

(* ===================================================================== *)
(** ** More on the CORS proxy helper *)
(* ===================================================================== *)

Module CorsExtras.
Import JS JSFacts CorsProxy.

Lemma reachableIndex_cases i : reachableIndex i -> i = 0%nat \/ i = 1%nat.
Proof.
  intros H. apply reachableIndex_bound in H. cbn in H. lia.
Qed.

(** X23.  The two proxies alternate: for every value the module variable
    can take, [getCurrentProxy] is one of the two entries of the list,
    [rotateProxy] switches to the other entry, and two rotations come back
    to the proxy in use before. *)
Theorem rotateProxy_alternates (currentProxyIndex : nat) :
  reachableIndex currentProxyIndex ->
  In (getCurrentProxy currentProxyIndex) CORS_PROXIES
  /\ getCurrentProxy (rotateProxy currentProxyIndex) <> getCurrentProxy currentProxyIndex
  /\ rotateProxy (rotateProxy currentProxyIndex) = currentProxyIndex.
Proof.
  intros H. destruct (reachableIndex_cases _ H) as [-> | ->].
  - split; [left; reflexivity|]. split; [discriminate | reflexivity].
  - split; [right; left; reflexivity|]. split; [discriminate | reflexivity].
Qed.

Lemma rotateProxy_alternates_witness :
  In (getCurrentProxy (rotateProxy 0)) CORS_PROXIES
  /\ getCurrentProxy (rotateProxy (rotateProxy 0)) <> getCurrentProxy (rotateProxy 0)
  /\ rotateProxy (rotateProxy (rotateProxy 0)) = rotateProxy 0.
Proof.
  apply (rotateProxy_alternates (rotateProxy 0)).
  exact (reach_rotate 0 reach_initial).
Defined.

(** *** What [encodeURIComponent] writes *)

(** A character that stands for itself in a query string, or the percent
    sign of an escape. *)
Definition querySafe (c : N) : bool := isUnreserved c || (c =? 37).

Lemma hexDigit_safe n : n < 16 -> querySafe (hexDigit n) = true.
Proof.
  intros H. rewrite <- (N2Nat.id n).
  assert (Hm : (N.to_nat n < 16)%nat) by lia.
  revert Hm. generalize (N.to_nat n) as m. intros m Hm.
  do 16 (destruct m as [|m]; [reflexivity|]). lia.
Qed.

Lemma percentEscape_safe octet :
  octet < 256 -> forallb querySafe (percentEscape octet) = true.
Proof.
  intros H. unfold percentEscape. cbn [forallb].
  rewrite !hexDigit_safe; [reflexivity | |].
  - change 15 with (N.ones 4). rewrite N.land_ones. apply N.mod_lt. discriminate.
  - rewrite N.shiftr_div_pow2. apply N.Div0.div_lt_upper_bound. exact H.
Qed.

Lemma lor_byte a b : a < 256 -> b < 256 -> N.lor a b < 256.
Proof.
  intros Ha Hb. destruct (N.eq_dec (N.lor a b) 0) as [E|E]; [rewrite E; reflexivity|].
  change 256 with (2 ^ 8). apply N.log2_lt_pow2; [lia|].
  rewrite N.log2_lor. apply N.max_lub_lt.
  - destruct (N.eq_dec a 0) as [->|Hne]; [reflexivity|]. apply N.log2_lt_pow2; [lia | exact Ha].
  - destruct (N.eq_dec b 0) as [->|Hne]; [reflexivity|]. apply N.log2_lt_pow2; [lia | exact Hb].
Qed.

Lemma land_63 x : N.land x 63 < 256.
Proof.
  change 63 with (N.ones 6). rewrite N.land_ones.
  pose proof (N.mod_lt x (2 ^ 6)). change (2 ^ 6) with 64 in *. lia.
Qed.

Lemma utf8_bytes cp : cp < 1114112 -> Forall (fun octet => octet < 256) (utf8 cp).
Proof.
  intros Hcp. unfold utf8.
  destruct (N.ltb_spec cp 128); [repeat constructor; lia|].
  destruct (N.ltb_spec cp 2048).
  { repeat constructor; apply lor_byte; try reflexivity; try apply land_63.
    rewrite N.shiftr_div_pow2. change (2 ^ 6) with 64.
    apply N.Div0.div_lt_upper_bound. lia. }
  destruct (N.ltb_spec cp 65536).
  { repeat constructor; apply lor_byte; try reflexivity; try apply land_63.
    rewrite N.shiftr_div_pow2. change (2 ^ 12) with 4096.
    apply N.Div0.div_lt_upper_bound. lia. }
  repeat constructor; apply lor_byte; try reflexivity; try apply land_63.
  rewrite N.shiftr_div_pow2. change (2 ^ 18) with 262144.
  apply N.Div0.div_lt_upper_bound. lia.
Qed.

Lemma escapeCodePoint_safe cp :
  cp < 1114112 -> forallb querySafe (escapeCodePoint cp) = true.
Proof.
  intros Hcp. unfold escapeCodePoint.
  pose proof (utf8_bytes cp Hcp) as Hbytes.
  induction Hbytes as [|octet octets Ho _ IH]; [reflexivity|].
  cbn [List.map concat]. rewrite forallb_app, (percentEscape_safe octet Ho). exact IH.
Qed.

(** Code units, below 65536. *)
Definition codeUnits (s : jsstring) : bool := forallb (fun c => c <? 65536) s.

Lemma encodeURIComponent_safe_bounded n : forall s encoded,
  (length s <= n)%nat ->
  codeUnits s = true ->
  encodeURIComponent s = Ok encoded ->
  forallb querySafe encoded = true.
Proof.
  induction n as [|n IH]; intros s encoded Hlen Hunits Henc.
  - destruct s; [|cbn in Hlen; lia]. injection Henc as <-. reflexivity.
  - destruct s as [|c s]; [injection Henc as <-; reflexivity|].
    cbn [codeUnits forallb] in Hunits. apply andb_true_iff in Hunits as [Hc Hs].
    apply N.ltb_lt in Hc. cbn [length] in Hlen. cbn [encodeURIComponent] in Henc.
    destruct (isUnreserved c) eqn:Hun.
    + destruct (encodeURIComponent s) as [rest|] eqn:Hrest; [|discriminate].
      injection Henc as <-. cbn [forallb]. unfold querySafe at 1. rewrite Hun.
      cbn [orb andb]. apply (IH s rest); [lia | exact Hs | exact Hrest].
    + destruct (isTrailSurrogate c) eqn:Htrail; [discriminate|].
      destruct (isLeadSurrogate c) eqn:Hlead.
      * destruct s as [|d s']; [discriminate|].
        destruct (isTrailSurrogate d) eqn:Hd; [|discriminate].
        destruct (encodeURIComponent s') as [rest|] eqn:Hrest; [|discriminate].
        injection Henc as <-. rewrite forallb_app.
        cbn [forallb] in Hs. apply andb_true_iff in Hs as [_ Hs'].
        rewrite (IH s' rest) by (cbn [length] in Hlen; lia || assumption).
        rewrite escapeCodePoint_safe; [reflexivity|].
        unfold isLeadSurrogate in Hlead. unfold isTrailSurrogate in Hd.
        apply andb_true_iff in Hlead as [_ H1]. apply andb_true_iff in Hd as [_ H2].
        apply N.leb_le in H1, H2. lia.
      * destruct (encodeURIComponent s) as [rest|] eqn:Hrest; [|discriminate].
        injection Henc as <-. rewrite forallb_app.
        rewrite (IH s rest) by (lia || assumption).
        rewrite escapeCodePoint_safe; [reflexivity | lia].
Qed.

(** X24.  What [getProxiedUrl] appends to the proxy for a URL that does
    not start with [https://] holds only unreserved characters (letters,
    digits, and - _ . ! ~ * ' ( ) ) and percent signs: no slash, colon,
    question mark, ampersand, equals sign, hash or space of the URL
    reaches the proxy's query string unescaped. *)
Theorem getProxiedUrl_query_safe (currentProxyIndex : nat) (url result : jsstring) :
  startsWith url (lit "https://") = false ->
  codeUnits url = true ->
  getProxiedUrl currentProxyIndex url = Ok result ->
  exists encoded,
    result = getCurrentProxy currentProxyIndex ++ encoded
    /\ forallb querySafe encoded = true
    /\ Forall (fun reserved => ~ In reserved encoded) [47; 58; 63; 38; 61; 35; 32].
Proof.
  intros Hhttp Hunits Hres. unfold getProxiedUrl in Hres. rewrite Hhttp in Hres.
  unfold bind in Hres. destruct (encodeURIComponent url) as [encoded|] eqn:Henc; [|discriminate].
  injection Hres as <-. exists encoded. split; [reflexivity|].
  pose proof (encodeURIComponent_safe_bounded _ url encoded (le_n _) Hunits Henc) as Hsafe.
  split; [exact Hsafe|].
  rewrite forallb_forall in Hsafe.
  repeat constructor; intros Hin; apply Hsafe in Hin; discriminate Hin.
Qed.

Lemma getProxiedUrl_query_safe_witness :
  exists encoded,
    lit "https://corsproxy.io/?http%3A%2F%2Fa.example%2Flive%3Fid%3D1%262"
    = getCurrentProxy 0 ++ encoded
    /\ forallb querySafe encoded = true
    /\ Forall (fun reserved => ~ In reserved encoded) [47; 58; 63; 38; 61; 35; 32].
Proof.
  apply (getProxiedUrl_query_safe 0 (lit "http://a.example/live?id=1&2"));
    vm_compute; reflexivity.
Defined.

(** *** When [getProxiedUrl] throws *)

(** Well-formed UTF-16: every lead surrogate is followed by a trail
    surrogate and no trail surrogate stands alone. *)
Fixpoint wellFormedUTF16 (s : jsstring) : bool :=
  match s with
  | [] => true
  | c :: s' =>
      if isLeadSurrogate c then
        match s' with
        | d :: s'' => isTrailSurrogate d && wellFormedUTF16 s''
        | [] => false
        end
      else negb (isTrailSurrogate c) && wellFormedUTF16 s'
  end.

Lemma unreserved_not_surrogate c :
  isUnreserved c = true -> isLeadSurrogate c = false /\ isTrailSurrogate c = false.
Proof.
  intros H.
  assert (Hc : c < 128).
  { unfold isUnreserved, isAlphaNum in H.
    repeat (apply orb_true_iff in H as [H | H]);
      repeat (apply andb_true_iff in H as [H ?]);
      try apply N.leb_le in H; try apply N.eqb_eq in H;
      repeat match goal with
             | [ H0 : (_ <=? _) = true |- _ ] => apply N.leb_le in H0
             end; lia. }
  unfold isLeadSurrogate, isTrailSurrogate.
  split; apply andb_false_iff; left; apply N.leb_gt; lia.
Qed.

Lemma encodeURIComponent_well_formed n : forall s,
  (length s <= n)%nat ->
  if wellFormedUTF16 s
  then exists encoded, encodeURIComponent s = Ok encoded
  else encodeURIComponent s = Throw URIError.
Proof.
  induction n as [|n IH]; intros s Hlen.
  - destruct s; [|cbn in Hlen; lia]. exists []. reflexivity.
  - destruct s as [|c s]; [exists []; reflexivity|].
    cbn [length] in Hlen. cbn [encodeURIComponent wellFormedUTF16].
    destruct (isUnreserved c) eqn:Hun.
    + destruct (unreserved_not_surrogate c Hun) as [-> ->]. cbn [negb andb].
      specialize (IH s ltac:(lia)).
      destruct (wellFormedUTF16 s).
      * destruct IH as (rest & ->). eexists. reflexivity.
      * rewrite IH. reflexivity.
    + destruct (isTrailSurrogate c) eqn:Htrail.
      * assert (isLeadSurrogate c = false) as ->.
        { unfold isLeadSurrogate, isTrailSurrogate in *.
          apply andb_true_iff in Htrail as [H1 _]. apply N.leb_le in H1.
          apply andb_false_iff. right. apply N.leb_gt. lia. }
        reflexivity.
      * destruct (isLeadSurrogate c).
        -- destruct s as [|d s']; [reflexivity|].
           destruct (isTrailSurrogate d); cbn [andb]; [|reflexivity].
           specialize (IH s' ltac:(cbn [length] in Hlen; lia)).
           destruct (wellFormedUTF16 s').
           ++ destruct IH as (rest & ->). eexists. reflexivity.
           ++ rewrite IH. reflexivity.
        -- cbn [negb andb]. specialize (IH s ltac:(lia)).
           destruct (wellFormedUTF16 s).
           ++ destruct IH as (rest & ->). eexists. reflexivity.
           ++ rewrite IH. reflexivity.
Qed.

(** X25.  [getProxiedUrl] throws exactly for a URL that does not start
    with [https://] and is not well-formed UTF-16 (a surrogate without
    its partner); what it throws is a [URIError]. *)
Theorem getProxiedUrl_throws_iff (currentProxyIndex : nat) (url : jsstring) :
  (getProxiedUrl currentProxyIndex url = Throw URIError
   <-> startsWith url (lit "https://") = false /\ wellFormedUTF16 url = false)
  /\ (forall e, getProxiedUrl currentProxyIndex url = Throw e -> e = URIError).
Proof.
  unfold getProxiedUrl. destruct (startsWith url (lit "https://")).
  - split; [split; [discriminate | intros [H _]; discriminate H] | discriminate].
  - pose proof (encodeURIComponent_well_formed _ url (le_n _)) as Hwf.
    destruct (wellFormedUTF16 url).
    + destruct Hwf as (encoded & ->). cbn [bind].
      split; [split; [discriminate | intros [_ H]; discriminate H] | discriminate].
    + rewrite Hwf. cbn [bind].
      split; [split; auto | intros e [= <-]; reflexivity].
Qed.

Example getProxiedUrl_lone_surrogate :
  getProxiedUrl 0 (lit "http://a.example/" ++ [55357]) = Throw URIError
  /\ getProxiedUrl 0 (lit "https://a.example/" ++ [55357])
     = Ok (lit "https://a.example/" ++ [55357]).
Proof. vm_compute. split; reflexivity. Qed.

End CorsExtras.

(* ===================================================================== *)
(** ** More on the playlist relay *)
(* ===================================================================== *)

Module RouteExtras.
Import JS PlaylistRoute.
Local Open Scope Z_scope.

Definition jsonHeaders : list (jsstring * jsstring) :=
  [(lit "content-type", lit "application/json")].

Lemma NextResponse_json_Ok message s response :
  NextResponse_json message s = Ok response ->
  response = {| status := s; body := errorJson message; headers := jsonHeaders |}
  /\ 200 <= s <= 599.
Proof.
  unfold NextResponse_json, newResponse.
  destruct (Z.ltb_spec s 200); cbn [orb]; [discriminate|].
  destruct (Z.ltb_spec 599 s); [discriminate|].
  destruct (nullBodyStatus s); [discriminate|].
  intros [= <-]. split; [reflexivity | lia].
Qed.

(** X26.  [GET] answers every request, and in one of two shapes only.
    Either status 200 with the three playlist headers and, as body, the
    text of an upstream response whose status was a success status.  Or
    a status outside 200..299 with a JSON content type and one of the
    three error bodies: the body of a failed upstream response is never
    passed on.  [fetch] is called at most once, with the [url] parameter
    as it was given. *)
Theorem GET_response_shapes (fetch : jsstring -> Upstream) (url : option jsstring) :
  exists response,
    fst (GET fetch url) = Ok response
    /\ ((status response = 200
         /\ headers response = playlistHeaders
         /\ exists u s, url = Some u /\ ok s = true
                        /\ fetch u = Responds s (Ok (body response)))
        \/ (~ (200 <= status response <= 299)
            /\ headers response = jsonHeaders
            /\ (body response = errorJson (lit "Missing url parameter")
                \/ body response = errorJson (lit "Failed to fetch playlist")
                \/ body response = errorJson (lit "Internal server error"))))
    /\ (snd (GET fetch url) = []
        \/ exists u, url = Some u /\ truthy u = true /\ snd (GET fetch url) = [u]).
Proof.
  assert (H400 : forall message,
             NextResponse_json message 400
             = Ok {| status := 400; body := errorJson message; headers := jsonHeaders |})
    by reflexivity.
  assert (H500 : forall message,
             NextResponse_json message 500
             = Ok {| status := 500; body := errorJson message; headers := jsonHeaders |})
    by reflexivity.
  assert (Hmissing : exists response,
             Ok {| status := 400; body := errorJson (lit "Missing url parameter");
                   headers := jsonHeaders |} = Ok response
             /\ ((status response = 200
                  /\ headers response = playlistHeaders
                  /\ exists u s, url = Some u /\ ok s = true
                                 /\ fetch u = Responds s (Ok (body response)))
                 \/ (~ (200 <= status response <= 299)
                     /\ headers response = jsonHeaders
                     /\ (body response = errorJson (lit "Missing url parameter")
                         \/ body response = errorJson (lit "Failed to fetch playlist")
                         \/ body response = errorJson (lit "Internal server error"))))).
  { eexists. split; [reflexivity|]. right. cbn [status body headers].
    split; [lia|]. split; [reflexivity | left; reflexivity]. }
  assert (Hinternal : exists response,
             Ok {| status := 500; body := errorJson (lit "Internal server error");
                   headers := jsonHeaders |} = Ok response
             /\ ((status response = 200
                  /\ headers response = playlistHeaders
                  /\ exists u s, url = Some u /\ ok s = true
                                 /\ fetch u = Responds s (Ok (body response)))
                 \/ (~ (200 <= status response <= 299)
                     /\ headers response = jsonHeaders
                     /\ (body response = errorJson (lit "Missing url parameter")
                         \/ body response = errorJson (lit "Failed to fetch playlist")
                         \/ body response = errorJson (lit "Internal server error"))))).
  { eexists. split; [reflexivity|]. right. cbn [status body headers].
    split; [lia|]. split; [reflexivity | right; right; reflexivity]. }
  unfold GET, GET_try. destruct url as [u|].
  2:{ rewrite H400. cbn [fst snd]. destruct Hmissing as (r & Hr & Hshape).
      exists r. split; [exact Hr|]. split; [exact Hshape | left; reflexivity]. }
  destruct (truthy u) eqn:Hu; cbn [negb].
  2:{ rewrite H400. cbn [fst snd]. destruct Hmissing as (r & Hr & Hshape).
      exists r. split; [exact Hr|]. split; [exact Hshape | left; reflexivity]. }
  assert (Hlog : [u] = [] \/ exists u0, Some u = Some u0 /\ truthy u0 = true /\ [u] = [u0]).
  { right. exists u. auto. }
  destruct (fetch u) as [e | s text] eqn:Hfetch.
  - rewrite H500. cbn [fst snd]. destruct Hinternal as (r & Hr & Hshape).
    exists r. split; [exact Hr|]. split; [exact Hshape | exact Hlog].
  - destruct (ok s) eqn:Hok; cbn [negb].
    + destruct text as [content | e]; cbn [bind].
      * eexists. cbn [fst snd]. split; [reflexivity|]. split; [|exact Hlog].
        left. cbn [status body headers]. split; [reflexivity|]. split; [reflexivity|].
        exists u, s. auto.
      * rewrite H500. cbn [fst snd]. destruct Hinternal as (r & Hr & Hshape).
        exists r. split; [exact Hr|]. split; [exact Hshape | exact Hlog].
    + destruct (NextResponse_json (lit "Failed to fetch playlist") s) as [r | e] eqn:Hjson.
      * apply NextResponse_json_Ok in Hjson as [-> Hrange].
        eexists. cbn [fst snd]. split; [reflexivity|]. split; [|exact Hlog].
        right. cbn [status body headers]. split; [|split; [reflexivity | right; left; reflexivity]].
        unfold ok in Hok. apply andb_false_iff in Hok as [H | H]; apply Z.leb_gt in H; lia.
      * rewrite H500. cbn [fst snd]. destruct Hinternal as (r & Hr & Hshape).
        exists r. split; [exact Hr|]. split; [exact Hshape | exact Hlog].
Qed.

End RouteExtras.

(* ===================================================================== *)
(** ** src/components/channel-list.tsx: the group list and the displayed
       channels *)
(* ===================================================================== *)

Module ChannelList.
Import JS JSFacts M3UParser.

(** *** The groups offered in the filter *)

(** The default order of [Array.prototype.sort] on strings: code unit by
    code unit, a proper prefix first. *)
Fixpoint compareString (a b : jsstring) : comparison :=
  match a, b with
  | [], [] => Eq
  | [], _ :: _ => Lt
  | _ :: _, [] => Gt
  | x :: a', y :: b' =>
      match N.compare x y with
      | Eq => compareString a' b'
      | Lt => Lt
      | Gt => Gt
      end
  end.

Definition lebString (a b : jsstring) : bool :=
  match compareString a b with
  | Gt => false
  | _ => true
  end.

(** Sorting strings in that order.  The strings sorted here are distinct,
    so the order leaves one result only, whatever algorithm the engine
    runs; insertion is the one written down. *)
Fixpoint insertString (x : jsstring) (sorted : list jsstring) : list jsstring :=
  match sorted with
  | [] => [x]
  | y :: rest => if lebString x y then x :: sorted else y :: insertString x rest
  end.

Definition sortStrings (l : list jsstring) : list jsstring :=
  fold_right insertString [] l.

(** [groupSet.add(group)] on a [Set], kept in insertion order. *)
Definition setAdd (set : list jsstring) (x : jsstring) : list jsstring :=
  if includes set x then set else set ++ [x].

(** The [groups] memo: the truthy group labels, each once, sorted. *)
Definition groups (channels : list Channel) : list jsstring :=
  let groupSet :=
    fold_left
      (fun set channel =>
         match group channel with
         | Some label => if truthy label then setAdd set label else set
         | None => set
         end)
      channels [] in
  sortStrings groupSet.

End ChannelList.

From Stdlib Require Import Sorted.

Module ChannelListFacts.
Import JS JSFacts M3UParser ChannelList.

Lemma compareString_eq a : forall b, compareString a b = Eq -> a = b.
Proof.
  induction a as [|x a IH]; intros [|y b]; cbn [compareString]; try discriminate;
    [reflexivity|].
  destruct (N.compare_spec x y) as [-> | _ | _]; try discriminate.
  intros H. rewrite (IH b H). reflexivity.
Qed.

Lemma compareString_antisym a : forall b, compareString b a = CompOpp (compareString a b).
Proof.
  induction a as [|x a IH]; intros [|y b]; cbn [compareString]; try reflexivity.
  rewrite (N.compare_antisym x y). destruct (N.compare x y); cbn [CompOpp]; auto.
Qed.

Lemma compareString_lt_trans a : forall b c,
  compareString a b = Lt -> compareString b c = Lt -> compareString a c = Lt.
Proof.
  induction a as [|x a IH]; intros [|y b] [|z c]; cbn [compareString]; try discriminate;
    try reflexivity.
  destruct (N.compare_spec x y) as [-> | Hxy | Hxy]; try discriminate.
  - destruct (N.compare_spec y z) as [-> | Hyz | Hyz]; try discriminate; auto.
    apply IH.
  - intros _. destruct (N.compare_spec y z) as [-> | Hyz | Hyz]; try discriminate.
    + intros _. destruct (N.compare_spec x z); [lia | reflexivity | lia].
    + intros _. destruct (N.compare_spec x z); [lia | reflexivity | lia].
Qed.

Definition ltString (a b : jsstring) : Prop := compareString a b = Lt.

Lemma insertString_In x y l : In y (insertString x l) <-> y = x \/ In y l.
Proof.
  induction l as [|z l IH]; cbn [insertString].
  - cbn. intuition congruence.
  - destruct (lebString x z); cbn [In]; [intuition congruence|].
    rewrite IH. intuition congruence.
Qed.

Lemma sortStrings_In y l : In y (sortStrings l) <-> In y l.
Proof.
  induction l as [|x l IH]; [reflexivity|].
  cbn [sortStrings fold_right]. fold (sortStrings l).
  rewrite insertString_In, IH. cbn [In]. intuition congruence.
Qed.

Lemma insertString_sorted x l :
  ~ In x l -> Sorted ltString l -> Sorted ltString (insertString x l).
Proof.
  intros Hx Hs. induction Hs as [|z l Hs IH Hhd]; cbn [insertString].
  - repeat constructor.
  - unfold lebString. destruct (compareString x z) eqn:E.
    + apply compareString_eq in E. subst. exfalso. apply Hx. left. reflexivity.
    + constructor; [constructor; assumption | constructor; exact E].
    + assert (Hzx : ltString z x).
      { unfold ltString. rewrite compareString_antisym, E. reflexivity. }
      constructor.
      * apply IH. intros Hin. apply Hx. right. exact Hin.
      * destruct l as [|w l]; cbn [insertString]; [constructor; exact Hzx|].
        destruct (lebString x w); constructor; [exact Hzx|].
        inversion Hhd. assumption.
Qed.

Lemma sortStrings_sorted l : List.NoDup l -> Sorted ltString (sortStrings l).
Proof.
  induction 1 as [|x l Hx Hnd IH]; [constructor|].
  cbn [sortStrings fold_right]. fold (sortStrings l).
  apply insertString_sorted; [|exact IH]. rewrite sortStrings_In. exact Hx.
Qed.

Lemma setAdd_In set x y : In y (setAdd set x) <-> In y set \/ y = x.
Proof.
  unfold setAdd. destruct (includes set x) eqn:E.
  - apply includes_In in E. intuition congruence.
  - rewrite in_app_iff. cbn [In]. intuition congruence.
Qed.

Lemma setAdd_NoDup set x : List.NoDup set -> List.NoDup (setAdd set x).
Proof.
  intros Hnd. unfold setAdd. destruct (includes set x) eqn:E; [exact Hnd|].
  apply (Permutation_NoDup (Permutation_cons_append set x)).
  constructor; [|exact Hnd]. intros Hin. apply includes_In in Hin. congruence.
Qed.

Definition collect (set : list jsstring) (channel : Channel) : list jsstring :=
  match group channel with
  | Some label => if truthy label then setAdd set label else set
  | None => set
  end.

Lemma collect_all channels : forall set,
  List.NoDup set ->
  List.NoDup (fold_left collect channels set)
  /\ forall label,
       In label (fold_left collect channels set)
       <-> In label set
           \/ (label <> [] /\ exists c, In c channels /\ group c = Some label).
Proof.
  induction channels as [|c channels IH]; intros set Hnd.
  - split; [exact Hnd|]. intros label. cbn [fold_left].
    split; [auto | intros [H | (_ & c & [] & _)]; exact H].
  - cbn [fold_left].
    assert (Hnd' : List.NoDup (collect set c)).
    { unfold collect. destruct (group c) as [l|]; [|exact Hnd].
      destruct (truthy l); [apply setAdd_NoDup|]; exact Hnd. }
    destruct (IH (collect set c) Hnd') as [Hres Hin]. split; [exact Hres|].
    intros label. rewrite Hin. unfold collect.
    destruct (group c) as [l|] eqn:Hg.
    + destruct (truthy l) eqn:Ht.
      * rewrite setAdd_In. split.
        -- intros [[H | Heq] | (Hne & c' & Hc' & Hgc')]; auto.
           ++ right. rewrite Heq. split; [destruct l; [discriminate Ht | discriminate]|].
              exists c. split; [left; reflexivity | exact Hg].
           ++ right. split; [exact Hne|]. exists c'. split; [right; exact Hc' | exact Hgc'].
        -- intros [H | (Hne & c' & [<- | Hc'] & Hgc')]; auto.
           ++ left. right. congruence.
           ++ right. split; [exact Hne|]. exists c'. auto.
      * split.
        -- intros [H | (Hne & c' & Hc' & Hgc')]; auto.
           right. split; [exact Hne|]. exists c'. split; [right; exact Hc' | exact Hgc'].
        -- intros [H | (Hne & c' & [<- | Hc'] & Hgc')]; auto.
           ++ exfalso. rewrite Hg in Hgc'. injection Hgc' as ->.
              destruct label; [contradiction | discriminate Ht].
           ++ right. split; [exact Hne|]. exists c'. auto.
    + split.
      * intros [H | (Hne & c' & Hc' & Hgc')]; auto.
        right. split; [exact Hne|]. exists c'. split; [right; exact Hc' | exact Hgc'].
      * intros [H | (Hne & c' & [<- | Hc'] & Hgc')]; auto.
        -- congruence.
        -- right. split; [exact Hne|]. exists c'. auto.
Qed.

(** X27.  The group filter lists exactly the non-empty group labels of
    the channels, each once, in strictly ascending code-unit order. *)
Theorem groups_sorted_distinct (channels : list Channel) :
  StronglySorted (fun a b => compareString a b = Lt) (groups channels)
  /\ List.NoDup (groups channels)
  /\ forall label,
       In label (groups channels)
       <-> label <> [] /\ exists c, In c channels /\ group c = Some label.
Proof.
  destruct (collect_all channels [] (List.NoDup_nil _)) as [Hnd Hin].
  assert (Hsorted : Sorted ltString (groups channels)).
  { unfold groups. apply sortStrings_sorted. exact Hnd. }
  assert (Hstrong : StronglySorted ltString (groups channels)).
  { apply Sorted_StronglySorted; [|exact Hsorted].
    intros a b c. apply compareString_lt_trans. }
  split; [exact Hstrong|]. split.
  - clear -Hstrong. induction Hstrong as [|a l _ IH Hall]; constructor; [|exact IH].
    intros Hin. rewrite List.Forall_forall in Hall. specialize (Hall a Hin).
    unfold ltString in Hall.
    assert (Hrefl : compareString a a = Eq).
    { clear. induction a as [|x a IH]; [reflexivity|]. cbn [compareString].
      rewrite N.compare_refl. exact IH. }
    congruence.
  - intros label. unfold groups. rewrite sortStrings_In.
    change (In label (fold_left collect channels [])
            <-> label <> [] /\ exists c, In c channels /\ group c = Some label).
    rewrite Hin. cbn [In]. tauto.
Qed.

End ChannelListFacts.

(** *** The displayed channels *)

Module ChannelListFilter.
Import JS JSFacts M3UParser RegistryExtras.
Local Open Scope Z_scope.

Inductive SortBy := byName | byGroup | byFavorites.

Section FilteredChannels.
(** Left to the platform: the Unicode lower-casing, the locale-aware
    comparison of strings, and [Array.prototype.sort] with a comparator,
    which reorders the array it is called on and returns it. *)
Variable toLowerCase : jsstring -> jsstring.
Variable localeCompare : jsstring -> jsstring -> Z.
Variable sortArray : (Channel -> Channel -> Z) -> list Channel -> list Channel.

(** The comparator of the [switch (sortBy)]. *)
Definition comparator (sortBy : SortBy) (favorites : list jsstring)
  : Channel -> Channel -> Z :=
  match sortBy with
  | byName => fun a b => localeCompare (name a) (name b)
  | byGroup =>
      fun a b =>
        let groupA := orElse (group a) (lit "Uncategorized") in
        let groupB := orElse (group b) (lit "Uncategorized") in
        if bool_decide (groupA = groupB)
        then localeCompare (name a) (name b)
        else localeCompare groupA groupB
  | byFavorites =>
      fun a b =>
        let aIsFav := includes favorites (id a) in
        let bIsFav := includes favorites (id b) in
        if Bool.eqb aIsFav bIsFav
        then localeCompare (name a) (name b)
        else if bIsFav then 1 else -1
  end.

(** The three filters, each applied only when it is switched on. *)
Definition matchesSearch (searchQuery : jsstring) (channel : Channel) : bool :=
  let query := toLowerCase searchQuery in
  includesString (toLowerCase (name channel)) query
  || fieldMatches toLowerCase (group channel) query.

Definition passes (searchQuery selectedGroup : jsstring) (showFavoritesOnly : bool)
    (favorites : list jsstring) (channel : Channel) : bool :=
  (if truthy (trim searchQuery) then matchesSearch searchQuery channel else true)
  && (if bool_decide (selectedGroup = lit "all") then true
      else bool_decide (group channel = Some selectedGroup))
  && (if showFavoritesOnly then includes favorites (id channel) else true).

(** No filter is switched on. *)
Definition unfiltered (searchQuery selectedGroup : jsstring) (showFavoritesOnly : bool) : bool :=
  negb (truthy (trim searchQuery))
  && bool_decide (selectedGroup = lit "all")
  && negb showFavoritesOnly.

(** The [filteredChannels] memo.  [filtered] starts as the [channels]
    array itself and becomes a new array at each [filter] call; the
    second component of an intermediate result tells whether [filtered]
    is still that array.  The result is the displayed list together with
    the content of the [channels] array after the call. *)
Definition filteredChannels (channels : list Channel)
    (searchQuery selectedGroup : jsstring) (showFavoritesOnly : bool)
    (sortBy : SortBy) (favorites : list jsstring) : list Channel * list Channel :=
  let step1 :=
    if truthy (trim searchQuery)
    then (List.filter (matchesSearch searchQuery) channels, false)
    else (channels, true) in
  let step2 :=
    if negb (bool_decide (selectedGroup = lit "all"))
    then (List.filter (fun channel => bool_decide (group channel = Some selectedGroup))
            (fst step1), false)
    else step1 in
  let step3 :=
    if showFavoritesOnly
    then (List.filter (fun channel => includes favorites (id channel)) (fst step2), false)
    else step2 in
  let sorted := sortArray (comparator sortBy favorites) (fst step3) in
  (sorted, if snd step3 then sorted else channels).

Lemma filter_filter {A} (f g : A -> bool) l :
  List.filter g (List.filter f l) = List.filter (fun x => f x && g x) l.
Proof.
  induction l as [|x l IH]; [reflexivity|]. cbn [List.filter].
  destruct (f x); cbn [andb List.filter]; [destruct (g x)|]; rewrite IH; reflexivity.
Qed.

Lemma filter_true {A} (l : list A) : List.filter (fun _ => true) l = l.
Proof. induction l as [|x l IH]; [reflexivity|]. cbn. rewrite IH. reflexivity. Qed.

Lemma filter_ext_bool {A} (f g : A -> bool) l :
  (forall x, f x = g x) -> List.filter f l = List.filter g l.
Proof.
  intros H. induction l as [|x l IH]; [reflexivity|]. cbn [List.filter].
  rewrite H, IH. reflexivity.
Qed.

(** The array that is sorted: the [channels] array itself when no filter
    is switched on, else a new array with the channels that pass. *)
Definition toSort (channels : list Channel)
    (searchQuery selectedGroup : jsstring) (showFavoritesOnly : bool)
    (favorites : list jsstring) : list Channel * bool :=
  let step1 :=
    if truthy (trim searchQuery)
    then (List.filter (matchesSearch searchQuery) channels, false)
    else (channels, true) in
  let step2 :=
    if negb (bool_decide (selectedGroup = lit "all"))
    then (List.filter (fun channel => bool_decide (group channel = Some selectedGroup))
            (fst step1), false)
    else step1 in
  if showFavoritesOnly
  then (List.filter (fun channel => includes favorites (id channel)) (fst step2), false)
  else step2.

Lemma toSort_spec channels searchQuery selectedGroup showFavoritesOnly favorites :
  toSort channels searchQuery selectedGroup showFavoritesOnly favorites
  = (List.filter (passes searchQuery selectedGroup showFavoritesOnly favorites) channels,
     unfiltered searchQuery selectedGroup showFavoritesOnly).
Proof.
  unfold toSort, passes, unfiltered.
  destruct (truthy (trim searchQuery));
    destruct (bool_decide (selectedGroup = lit "all"));
    destruct showFavoritesOnly; cbn [fst snd negb andb];
    rewrite ?filter_filter; f_equal;
    first [ reflexivity
          | apply filter_ext_bool; intros x;
            rewrite ?andb_true_r, ?andb_assoc; reflexivity
          | symmetry; apply filter_true ].
Qed.

(** Every sort returns the elements it was given. *)
Hypothesis sortArray_permutes : forall cmp l, Permutation (sortArray cmp l) l.

(** X28.  The displayed list is a rearrangement of the channels that pass
    the filters switched on.  The [channels] array of the playlist keeps
    its elements but not always its order: with a filter switched on it is
    left as it was, and with no filter switched on it is sorted in place
    and is afterwards the displayed list itself. *)
Theorem filteredChannels_sorts_in_place (channels : list Channel)
    (searchQuery selectedGroup : jsstring) (showFavoritesOnly : bool)
    (sortBy : SortBy) (favorites : list jsstring) :
  let result :=
    filteredChannels channels searchQuery selectedGroup showFavoritesOnly sortBy favorites in
  Permutation (fst result)
    (List.filter (passes searchQuery selectedGroup showFavoritesOnly favorites) channels)
  /\ Permutation (snd result) channels
  /\ snd result
     = (if unfiltered searchQuery selectedGroup showFavoritesOnly
        then fst result else channels).
Proof.
  cbn zeta. unfold filteredChannels.
  fold (toSort channels searchQuery selectedGroup showFavoritesOnly favorites).
  rewrite toSort_spec. cbn [fst snd].
  split; [apply sortArray_permutes|]. split; [|reflexivity].
  destruct (unfiltered searchQuery selectedGroup showFavoritesOnly) eqn:Hun; [|reflexivity].
  etransitivity; [apply sortArray_permutes|].
  apply Permutation_refl'.
  pose proof (toSort_spec channels searchQuery selectedGroup showFavoritesOnly favorites) as Hspec.
  unfold toSort, unfiltered in Hspec, Hun.
  destruct (truthy (trim searchQuery)); [discriminate Hun|].
  destruct (bool_decide (selectedGroup = lit "all")); [|discriminate Hun].
  destruct showFavoritesOnly; [discriminate Hun|].
  cbn [fst snd negb andb] in Hspec. injection Hspec as Hspec. symmetry. exact Hspec.
Qed.

End FilteredChannels.

(** A sort that inserts each element before the first one it does not
    come after, for the examples. *)
Fixpoint insertBy (cmp : Channel -> Channel -> Z) (x : Channel) (sorted : list Channel)
  : list Channel :=
  match sorted with
  | [] => [x]
  | y :: rest => if cmp x y <=? 0 then x :: sorted else y :: insertBy cmp x rest
  end.

Definition insertionSort (cmp : Channel -> Channel -> Z) (l : list Channel) : list Channel :=
  fold_right (insertBy cmp) [] l.

Lemma insertionSort_permutes cmp l : Permutation (insertionSort cmp l) l.
Proof.
  induction l as [|x l IH]; [constructor|].
  cbn [insertionSort fold_right]. fold (insertionSort cmp l).
  transitivity (x :: insertionSort cmp l); [|constructor; exact IH].
  generalize (insertionSort cmp l) as sorted. clear.
  induction sorted as [|y sorted IH]; cbn [insertBy]; [reflexivity|].
  destruct (cmp x y <=? 0); [reflexivity|].
  transitivity (y :: x :: sorted); [constructor; exact IH | constructor].
Qed.

(** The comparison of strings by code units, as a number. *)
Definition codeUnitCompare (a b : jsstring) : Z :=
  match ChannelList.compareString a b with
  | Lt => -1
  | Eq => 0
  | Gt => 1
  end.

Definition station (ident label : jsstring) (category : option jsstring) : Channel :=
  {| id := ident; name := label; url := lit "http://example.com/" ++ ident;
     group := category; logo := None; country := None; language := None;
     tvgId := None; tvgName := None |}.

Definition stations : list Channel :=
  [ station (lit "1") (lit "Zebra") (Some (lit "News"));
    station (lit "2") (lit "Alpha") None;
    station (lit "3") (lit "Mango") (Some (lit "News")) ].

Lemma filteredChannels_sorts_in_place_witness :
  let result :=
    filteredChannels asciiLower codeUnitCompare insertionSort
      stations [] (lit "all") false byName [] in
  Permutation (fst result)
    (List.filter (passes asciiLower [] (lit "all") false []) stations)
  /\ Permutation (snd result) stations
  /\ snd result = (if unfiltered [] (lit "all") false then fst result else stations).
Proof.
  apply (filteredChannels_sorts_in_place asciiLower codeUnitCompare insertionSort
           insertionSort_permutes stations [] (lit "all") false byName []).
Defined.

(** With no filter switched on, sorting by name leaves the playlist
    array in name order: the channel that was first is now last. *)
Example filteredChannels_reorders_playlist :
  List.map name
    (snd (filteredChannels asciiLower codeUnitCompare insertionSort
            stations [] (lit "all") false byName []))
  = [lit "Alpha"; lit "Mango"; lit "Zebra"].
Proof. vm_compute. reflexivity. Qed.

End ChannelListFilter.

(* ===================================================================== *)
(** ** src/components/video-player.tsx: the decode session *)
(* ===================================================================== *)

Module VideoPlayer.
Import JS.
Local Open Scope nat_scope.

(** What the browser offers for HLS. *)
Inductive Support :=
| HlsJs          (* Hls.isSupported() *)
| NativeHls      (* video.canPlayType('application/vnd.apple.mpegurl') *)
| NoHls.

(** What the library calls of one [loadStream] or cleanup do: whether
    [destroy], [new Hls(...)] and the calls on the new instance
    ([loadSource], [attachMedia], [on]) throw, and whether a [destroy]
    that throws had released its session before it threw. *)
Record Library := {
  support : Support;
  destroyThrows : bool;
  releasedBeforeThrow : bool;
  constructorThrows : bool;
  attachThrows : bool
}.

(** The part of the component that concerns the decode session.
    Instances of [Hls] are numbered in the order of their construction;
    [alive] lists those constructed and not destroyed. *)
Record Player := {
  hlsRef : option nat;
  alive : list nat;
  constructed : nat;
  videoSrc : option jsstring;
  isLoading : bool;
  error : option jsstring
}.

Definition initialPlayer : Player :=
  {| hlsRef := None; alive := []; constructed := 0; videoSrc := None;
     isLoading := false; error := None |}.

Definition setLoading (p : Player) : Player :=
  {| hlsRef := hlsRef p; alive := alive p; constructed := constructed p;
     videoSrc := videoSrc p; isLoading := true; error := None |}.

Definition setError (message : jsstring) (p : Player) : Player :=
  {| hlsRef := hlsRef p; alive := alive p; constructed := constructed p;
     videoSrc := videoSrc p; isLoading := false; error := Some message |}.

(** The session of instance [h] is released. *)
Definition release (h : nat) (p : Player) : Player :=
  {| hlsRef := hlsRef p;
     alive := List.filter (fun i => negb (Nat.eqb i h)) (alive p);
     constructed := constructed p; videoSrc := videoSrc p;
     isLoading := isLoading p; error := error p |}.

(** [hlsRef.current.destroy()] on instance [h]: the state it leaves, and
    whether it returned. *)
Definition destroy (lib : Library) (h : nat) (p : Player) : Player * bool :=
  if destroyThrows lib
  then (if releasedBeforeThrow lib then release h p else p, false)
  else (release h p, true).

Definition clearRef (p : Player) : Player :=
  {| hlsRef := None; alive := alive p; constructed := constructed p;
     videoSrc := videoSrc p; isLoading := isLoading p; error := error p |}.

(** [const hls = new Hls(...); hlsRef.current = hls] *)
Definition construct (p : Player) : Player :=
  {| hlsRef := Some (constructed p); alive := constructed p :: alive p;
     constructed := S (constructed p); videoSrc := videoSrc p;
     isLoading := isLoading p; error := error p |}.

Definition setSrc (streamUrl : jsstring) (p : Player) : Player :=
  {| hlsRef := hlsRef p; alive := alive p; constructed := constructed p;
     videoSrc := Some streamUrl; isLoading := isLoading p; error := error p |}.

Definition failed : Player -> Player := setError (lit "Failed to load stream").

(** The [try] block of [loadStream] after the previous instance is gone. *)
Definition startSession (lib : Library) (streamUrl : jsstring) (p : Player) : Player :=
  match support lib with
  | HlsJs =>
      if constructorThrows lib then failed p
      else if attachThrows lib then failed (construct p)
      else construct p
  | NativeHls => setSrc streamUrl p
  | NoHls => setError (lit "HLS is not supported in this browser") p
  end.

(** [loadStream(streamUrl)] up to its return; the handlers it registers
    run later and touch [isLoading] and [error] only.  An exception
    inside the [try] block goes to the [catch] block with the state
    reached so far. *)
Definition loadStream (videoPresent : bool) (lib : Library) (streamUrl : jsstring)
    (p : Player) : Player :=
  if negb videoPresent then p
  else
    let p1 := setLoading p in
    match hlsRef p1 with
    | Some h =>
        match destroy lib h p1 with
        | (p2, true) => startSession lib streamUrl (clearRef p2)
        | (p2, false) => failed p2
        end
    | None => startSession lib streamUrl p1
    end.

(** The cleanup of the effect that loads the channel: it runs when the
    channel URL changes and when the component unmounts.  An exception of
    [destroy] leaves the reference as it is. *)
Definition cleanup (lib : Library) (p : Player) : Player :=
  match hlsRef p with
  | Some h =>
      match destroy lib h p with
      | (p1, true) => clearRef p1
      | (p1, false) => p1
      end
  | None => p
  end.

Inductive event :=
| Load (videoPresent : bool) (lib : Library) (streamUrl : jsstring)
| Cleanup (lib : Library).

Definition step (p : Player) (e : event) : Player :=
  match e with
  | Load videoPresent lib streamUrl => loadStream videoPresent lib streamUrl p
  | Cleanup lib => cleanup lib p
  end.

Definition run (events : list event) : Player := fold_left step events initialPlayer.

(** A session alive is the one [hlsRef] holds, and the number of the
    instance [hlsRef] holds has been given out. *)
Definition oneSession (p : Player) : Prop :=
  (alive p = [] \/ exists h, alive p = [h] /\ hlsRef p = Some h)
  /\ forall h, hlsRef p = Some h -> h < constructed p.

Lemma release_held h p :
  oneSession p -> hlsRef p = Some h -> alive (release h p) = [].
Proof.
  intros [[Hnone | (h' & Hone & Href')] _] Href; cbn; [rewrite Hnone; reflexivity|].
  rewrite Hone. assert (h' = h) as -> by congruence.
  cbn. rewrite Nat.eqb_refl. reflexivity.
Qed.

Lemma startSession_oneSession lib streamUrl p :
  alive p = [] -> hlsRef p = None -> oneSession (startSession lib streamUrl p).
Proof.
  intros Halive Href. unfold startSession, oneSession.
  destruct (support lib);
    [destruct (constructorThrows lib); [|destruct (attachThrows lib)]| |];
    cbn; rewrite ?Halive, ?Href;
    (split; [first [left; reflexivity | right; eexists; split; reflexivity]
            |first [discriminate | intros h [= <-]; lia]]).
Qed.

Lemma loadStream_oneSession videoPresent lib streamUrl p :
  oneSession p -> oneSession (loadStream videoPresent lib streamUrl p).
Proof.
  intros Hp. unfold loadStream.
  destruct videoPresent; cbn [negb]; [|exact Hp].
  cbn [setLoading hlsRef].
  assert (Hp1 : oneSession (setLoading p)) by exact Hp.
  destruct (hlsRef p) as [h|] eqn:Href.
  - pose proof (release_held h (setLoading p) Hp1 Href) as Hgone.
    unfold destroy. destruct (destroyThrows lib).
    + destruct (releasedBeforeThrow lib); [|exact Hp].
      split; [left; exact Hgone | exact (proj2 Hp)].
    + apply startSession_oneSession; [exact Hgone | reflexivity].
  - destruct Hp as [[Hnone | (h & _ & Hsome)] _]; [|congruence].
    apply startSession_oneSession; assumption.
Qed.

Lemma cleanup_oneSession lib p : oneSession p -> oneSession (cleanup lib p).
Proof.
  intros Hp. unfold cleanup.
  destruct (hlsRef p) as [h|] eqn:Href; [|exact Hp].
  pose proof (release_held h p Hp Href) as Hgone.
  unfold destroy. destruct (destroyThrows lib).
  - destruct (releasedBeforeThrow lib); [|exact Hp].
    split; [left; exact Hgone | exact (proj2 Hp)].
  - split; [left; exact Hgone | discriminate].
Qed.

Lemma run_oneSession events : oneSession (run events).
Proof.
  unfold run.
  assert (Hinit : oneSession initialPlayer) by (split; [left; reflexivity | discriminate]).
  revert Hinit. generalize initialPlayer as p.
  induction events as [|e events IH]; intros p Hp; [exact Hp|].
  cbn [fold_left]. apply IH. destruct e; cbn [step];
    [apply loadStream_oneSession | apply cleanup_oneSession]; exact Hp.
Qed.

(** X29.  At most one decode session is alive at any time, and it is the
    one [hlsRef] refers to: this holds after every sequence of stream
    loads and effect cleanups, whatever the browser supports and
    whichever library calls throw.  A load that finds a session destroys
    it before it constructs the next one; after a cleanup no session is
    alive unless its [destroy] threw without releasing. *)
Theorem at_most_one_session (events : list event) :
  length (alive (run events)) <= 1
  /\ (forall h, In h (alive (run events)) -> hlsRef (run events) = Some h)
  /\ forall lib,
       destroyThrows lib = false \/ releasedBeforeThrow lib = true ->
       alive (cleanup lib (run events)) = [].
Proof.
  pose proof (run_oneSession events) as Hinv.
  split; [|split].
  - destruct Hinv as [[-> | (h & -> & _)] _]; cbn; lia.
  - destruct Hinv as [[-> | (h & -> & Href)] _]; intros h0 [].
    + subst h0. exact Href.
    + contradiction.
  - intros lib Hlib. unfold cleanup.
    destruct (hlsRef (run events)) as [h|] eqn:Href.
    + pose proof (release_held h _ Hinv Href) as Hgone.
      unfold destroy. destruct (destroyThrows lib).
      * destruct Hlib as [Hlib | ->]; [discriminate | exact Hgone].
      * exact Hgone.
    + destruct Hinv as [[Hnone | (h & _ & Hsome)] _]; [exact Hnone | congruence].
Qed.

Definition working : Library :=
  {| support := HlsJs; destroyThrows := false; releasedBeforeThrow := false;
     constructorThrows := false; attachThrows := false |}.

Definition zapping : list event :=
  [Load true working (lit "http://a/1"); Load true working (lit "http://a/2")].

Lemma at_most_one_session_witness :
  In 1 (alive (run zapping)) /\ hlsRef (run zapping) = Some 1
  /\ alive (cleanup working (run zapping)) = [].
Proof.
  assert (Halive : In 1 (alive (run zapping))) by (left; reflexivity).
  split; [exact Halive|]. split.
  - apply (proj1 (proj2 (at_most_one_session zapping))). exact Halive.
  - apply (proj2 (proj2 (at_most_one_session zapping))). left. reflexivity.
Defined.

End VideoPlayer.
